(** * TypingMind conversation-reference extension: a shallow embedding

    Source: [src/convo-reference1.1.js].  The script is one closure holding a
    handful of module-level variables, a DOM it does not own, timers and an
    IndexedDB store.  Each part is embedded as the code has it:

    - the document as a forest of element and text nodes, node references as
      paths (the code holds references to live nodes);
    - the module-level variables, the [window] globals and the pending timers
      as one explicit state record, every function passing it along;
    - stored records as JavaScript values;
    - fallible code as a sum of a returned value and a thrown error. *)

From Stdlib Require Import List String Ascii Bool Arith ZArith Lia.
From Stdlib Require Import Permutation Sorted DecimalString.
Import ListNotations.

Set Implicit Arguments.

(* ------------------------------------------------------------------ *)
(** * List helpers: edits by index *)
(* ------------------------------------------------------------------ *)

Section ListEdit.
Context {A : Type}.

(** The list without its [i]-th element (unchanged when out of range). *)
Fixpoint remove_nth (i : nat) (l : list A) {struct l} : list A :=
  match l with
  | [] => []
  | x :: l' => match i with
               | O => l'
               | S j => x :: remove_nth j l'
               end
  end.

(** The list with [g] applied to its [i]-th element. *)
Fixpoint update_nth (i : nat) (g : A -> A) (l : list A) {struct l} : list A :=
  match l with
  | [] => []
  | x :: l' => match i with
               | O => g x :: l'
               | S j => x :: update_nth j g l'
               end
  end.
End ListEdit.

(* ------------------------------------------------------------------ *)
(** * The document *)
(* ------------------------------------------------------------------ *)

Module Dom.

(** What the script reads of an element: its tag, its [id], its
    [data-element-id] attribute and its class list. *)
Record attrs : Type := mkAttrs {
  tag : string;
  elId : option string;
  dataElementId : option string;
  classList : list string
}.

#[local] Unset Elimination Schemes.
Inductive node : Type :=
| Text (data : string)
| Element (a : attrs) (children : list node).
#[local] Set Elimination Schemes.

(** The document is the forest of its top-level nodes. *)
Definition forest := list node.

(** A path names a node: [i :: p] is the node at [p] below the [i]-th
    node of the forest; the empty path names no node. *)
Definition path := list nat.

Section NodeInd.
Variable P : node -> Prop.
Hypothesis PText : forall s, P (Text s).
Hypothesis PElement : forall a cs, Forall P cs -> P (Element a cs).

Fixpoint node_ind' (n : node) : P n :=
  match n with
  | Text s => PText s
  | Element a cs =>
      PElement a
        ((fix all (l : list node) : Forall P l :=
            match l with
            | [] => Forall_nil P
            | c :: l' => Forall_cons c (node_ind' c) (all l')
            end) cs)
  end.
End NodeInd.

(** ** Queries in document order *)

Definition bump (p : path) : path :=
  match p with
  | [] => []
  | i :: p' => S i :: p'
  end.

Section FirstIn.
Variable f : node -> option path.

(** First hit of [f] among the nodes of a forest, left to right. *)
Fixpoint first_in (l : forest) : option path :=
  match l with
  | [] => None
  | c :: l' => match f c with
               | Some p => Some (0 :: p)
               | None => option_map bump (first_in l')
               end
  end.
End FirstIn.

(** First element, in pre-order, whose attributes satisfy [q]: the node
    itself (relative path [[]]) before its descendants. *)
Fixpoint find_node (q : attrs -> bool) (n : node) : option path :=
  match n with
  | Text _ => None
  | Element a cs => if q a then Some [] else first_in (find_node q) cs
  end.

(** [document.querySelector] / [element.querySelector] for a compound
    selector on one element: the first match among the forest's nodes and
    their descendants. *)
Definition querySelector (q : attrs -> bool) (f : forest) : option path :=
  first_in (find_node q) f.

(** Number of elements of a subtree satisfying [q]. *)
Fixpoint count_node (q : attrs -> bool) (n : node) : nat :=
  match n with
  | Text _ => 0
  | Element a cs =>
      (if q a then 1 else 0) + list_sum (map (count_node q) cs)
  end.

Definition count (q : attrs -> bool) (f : forest) : nat :=
  list_sum (map (count_node q) f).

(** ** Node access and edits by path *)

Definition childrenOf (n : node) : forest :=
  match n with
  | Text _ => []
  | Element _ cs => cs
  end.

Definition withChildren (g : forest -> forest) (n : node) : node :=
  match n with
  | Text s => Text s
  | Element a cs => Element a (g cs)
  end.

Fixpoint get_at (p : path) (f : forest) : option node :=
  match p with
  | [] => None
  | i :: p' =>
      match nth_error f i with
      | None => None
      | Some n => match p' with
                  | [] => Some n
                  | _ :: _ => get_at p' (childrenOf n)
                  end
      end
  end.

(** [node.remove()]: the node at [p], with its subtree, leaves its parent. *)
Fixpoint remove_at (p : path) (f : forest) : forest :=
  match p with
  | [] => f
  | i :: p' =>
      match p' with
      | [] => remove_nth i f
      | _ :: _ => update_nth i (withChildren (remove_at p')) f
      end
  end.

(** [parent.prepend(c)]: [c] becomes the first child of the element at
    [p]. *)
Fixpoint prepend_at (p : path) (c : node) (f : forest) : forest :=
  match p with
  | [] => f
  | i :: p' =>
      match p' with
      | [] => update_nth i (withChildren (cons c)) f
      | _ :: _ => update_nth i (withChildren (prepend_at p' c)) f
      end
  end.

(** ** Selectors the script uses *)

Definition opt_string_eqb (o : option string) (s : string) : bool :=
  match o with
  | Some x => String.eqb x s
  | None => false
  end.

Definition has_class (c : string) (a : attrs) : bool :=
  existsb (String.eqb c) (classList a).

(** [document.getElementById(i)]: first element in document order whose id
    is [i]. *)
Definition has_id (i : string) (a : attrs) : bool := opt_string_eqb (elId a) i.

Definition getElementById (i : string) (f : forest) : option path :=
  querySelector (has_id i) f.

(** The forest without its first [q]-element (and that element's
    subtree). *)
Definition removeFirst (q : attrs -> bool) (f : forest) : forest :=
  match querySelector q f with
  | Some p => remove_at p f
  | None => f
  end.

(** The first [q]-element itself. *)
Definition firstMatch (q : attrs -> bool) (f : forest) : option node :=
  match querySelector q f with
  | Some p => get_at p f
  | None => None
  end.

(** No [q]-element holds an [r]-element, itself included. *)
Fixpoint sealed_node (q r : attrs -> bool) (n : node) : bool :=
  match n with
  | Text _ => true
  | Element a cs =>
      (if q a then Nat.eqb (count_node r n) 0 else true)
      && forallb (sealed_node q r) cs
  end.

Definition sealed (q r : attrs -> bool) (f : forest) : bool :=
  forallb (sealed_node q r) f.

(** ** Facts about queries and edits *)

(** Induction over a forest that also descends into children. *)
Lemma forest_ind' (P : forest -> Prop) :
  P [] ->
  (forall s l, P l -> P (Text s :: l)) ->
  (forall a cs l, P cs -> P l -> P (Element a cs :: l)) ->
  forall f, P f.
Proof.
  intros H0 Ht He.
  assert (step : forall n l, P l -> P (n :: l)).
  { induction n as [s | a cs IH] using node_ind'; intros l Hl.
    - now apply Ht.
    - apply He; [|exact Hl].
      induction IH as [|c cs' Hc _ IHcs]; [exact H0|]. now apply Hc. }
  induction f as [|n l IH]; [exact H0|]. now apply step.
Qed.

Lemma querySelector_Text q s l :
  querySelector q (Text s :: l) = option_map bump (querySelector q l).
Proof. reflexivity. Qed.

Lemma querySelector_Element q a cs l :
  querySelector q (Element a cs :: l) =
  if q a then Some [0]
  else match querySelector q cs with
       | Some p => Some (0 :: p)
       | None => option_map bump (querySelector q l)
       end.
Proof.
  unfold querySelector. simpl. destruct (q a); [reflexivity|].
  now destruct (first_in (find_node q) cs).
Qed.

Lemma count_Text q s l : count q (Text s :: l) = count q l.
Proof. reflexivity. Qed.

Lemma count_Element q a cs l :
  count q (Element a cs :: l) = (if q a then 1 else 0) + count q cs + count q l.
Proof. unfold count. simpl. lia. Qed.

Lemma get_at_bump p n l : get_at (bump p) (n :: l) = get_at p l.
Proof. destruct p as [|i p']; reflexivity. Qed.

Lemma get_at_below p a cs l :
  p <> [] -> get_at (0 :: p) (Element a cs :: l) = get_at p cs.
Proof. destruct p; [congruence|reflexivity]. Qed.

(** A query answers with the path of an element that matches. *)
Lemma querySelector_sound (q : attrs -> bool) :
  forall (f : forest) (p : path),
    querySelector q f = Some p ->
    exists b ds, get_at p f = Some (Element b ds) /\ q b = true.
Proof.
  induction f as [|s l IH|a cs l IHcs IHl] using forest_ind'; intros p H.
  - discriminate.
  - rewrite querySelector_Text in H.
    destruct (querySelector q l) as [pl|]; [|discriminate].
    inversion H; subst. rewrite get_at_bump. now apply IH.
  - rewrite querySelector_Element in H. destruct (q a) eqn:Hq.
    + inversion H; subst. simpl. eauto.
    + destruct (querySelector q cs) as [pc|] eqn:Hc.
      * inversion H; subst. destruct (IHcs pc eq_refl) as (b & ds & Hg & Hb).
        exists b, ds. split; [|exact Hb].
        rewrite get_at_below; [exact Hg|]. intros ->. discriminate.
      * destruct (querySelector q l) as [pl|]; [|discriminate].
        inversion H; subst. rewrite get_at_bump. now apply IHl.
Qed.

(** A query fails exactly on a forest without a match. *)
Lemma querySelector_None_iff (q : attrs -> bool) :
  forall f : forest, querySelector q f = None <-> count q f = 0.
Proof.
  induction f as [|s l IH|a cs l IHcs IHl] using forest_ind'.
  - split; reflexivity.
  - rewrite querySelector_Text, count_Text.
    destruct (querySelector q l); simpl; split; intros H;
      try discriminate; try reflexivity; try (now apply IH).
    apply IH in H. discriminate.
  - rewrite querySelector_Element, count_Element. destruct (q a).
    + split; intros H; [discriminate|lia].
    + destruct (querySelector q cs) as [pc|].
      * split; intros H; [discriminate|].
        assert (E : count q cs = 0) by lia. apply IHcs in E. discriminate.
      * destruct (querySelector q l) as [pl|]; simpl.
        -- split; intros H; [discriminate|].
           assert (E : count q l = 0) by lia. apply IHl in E. discriminate.
        -- split; intros _; [|reflexivity].
           destruct IHcs as [Hc _], IHl as [Hl _].
           rewrite (Hc eq_refl), (Hl eq_refl). reflexivity.
Qed.

Lemma nth_error_count (q : attrs -> bool) (f : forest) (i : nat) (n : node) :
  nth_error f i = Some n ->
  count q (remove_nth i f) + count_node q n = count q f.
Proof.
  unfold count. revert i.
  induction f as [|x f IH]; intros [|i] H; simpl in *; try discriminate.
  - inversion H; subst. lia.
  - specialize (IH i H). lia.
Qed.

Lemma count_update_nth (q : attrs -> bool) (g : node -> node) :
  forall (f : forest) (i : nat) (n : node),
    nth_error f i = Some n ->
    count q (update_nth i g f) + count_node q n =
    count q f + count_node q (g n).
Proof.
  unfold count.
  induction f as [|x f IH]; intros [|i] n H; simpl in *; try discriminate.
  - inversion H; subst. lia.
  - specialize (IH i n H). lia.
Qed.

Lemma count_node_withChildren (q : attrs -> bool) (g : forest -> forest) n :
  g [] = [] ->
  count_node q (withChildren g n) + count q (childrenOf n) =
  count_node q n + count q (g (childrenOf n)).
Proof. intros Hg. destruct n; simpl; [now rewrite Hg|]. unfold count; lia. Qed.

Lemma remove_at_nil p : remove_at p [] = [].
Proof. destruct p as [|i [|j p']]; reflexivity. Qed.

Lemma prepend_at_nil p c : prepend_at p c [] = [].
Proof. destruct p as [|i [|j p']]; reflexivity. Qed.

(** Removing the node at [p] takes exactly its subtree's matches away. *)
Lemma count_remove_at (q : attrs -> bool) :
  forall (p : path) (f : forest) (n : node),
    get_at p f = Some n ->
    count q (remove_at p f) + count_node q n = count q f.
Proof.
  induction p as [|i p IH]; intros f n H; [discriminate|].
  simpl in H. destruct (nth_error f i) as [m|] eqn:Hi; [|discriminate].
  destruct p as [|j p'].
  - inversion H; subst. simpl. now apply nth_error_count.
  - specialize (IH (childrenOf m) n H).
    change (remove_at (i :: j :: p') f)
      with (update_nth i (withChildren (remove_at (j :: p'))) f).
    pose proof (count_update_nth q (withChildren (remove_at (j :: p'))) f i Hi).
    pose proof (count_node_withChildren q (remove_at (j :: p')) m
                  (remove_at_nil _)).
    lia.
Qed.

(** Prepending [c] below the element at [p] adds exactly [c]'s matches. *)
Lemma count_prepend_at (q : attrs -> bool) (c : node) :
  forall (p : path) (f : forest) (a : attrs) (cs : forest),
    get_at p f = Some (Element a cs) ->
    count q (prepend_at p c f) = count q f + count_node q c.
Proof.
  induction p as [|i p IH]; intros f a cs H; [discriminate|].
  simpl in H. destruct (nth_error f i) as [m|] eqn:Hi; [|discriminate].
  destruct p as [|j p'].
  - inversion H; subst. simpl.
    pose proof (count_update_nth q (withChildren (cons c)) f i Hi) as U.
    simpl in U. unfold count in *. simpl in *. lia.
  - specialize (IH (childrenOf m) a cs H).
    change (prepend_at (i :: j :: p') c f)
      with (update_nth i (withChildren (prepend_at (j :: p') c)) f).
    pose proof (count_update_nth q (withChildren (prepend_at (j :: p') c)) f i Hi).
    pose proof (count_node_withChildren q (prepend_at (j :: p') c) m
                  (prepend_at_nil _ _)).
    lia.
Qed.

Lemma update_nth_twice (g h : node -> node) :
  forall (f : forest) (i : nat),
    update_nth i h (update_nth i g f) = update_nth i (fun n => h (g n)) f.
Proof.
  induction f as [|x f IH]; intros [|i]; simpl; try reflexivity.
  now rewrite IH.
Qed.

Lemma update_nth_fixed (g : node -> node) :
  forall (f : forest) (i : nat) (n : node),
    nth_error f i = Some n -> g n = n -> update_nth i g f = f.
Proof.
  induction f as [|x f IH]; intros [|i] n H E; simpl in *; try discriminate.
  - inversion H; subst. now rewrite E.
  - now rewrite (IH i n H E).
Qed.

Lemma update_nth_ext (g h : node -> node) :
  forall (f : forest) (i : nat) (n : node),
    nth_error f i = Some n -> g n = h n -> update_nth i g f = update_nth i h f.
Proof.
  induction f as [|x f IH]; intros [|i] n H E; simpl in *; try discriminate.
  - inversion H; subst. now rewrite E.
  - now rewrite (IH i n H E).
Qed.

Lemma nth_error_update_nth (g : node -> node) :
  forall (f : forest) (i : nat) (n : node),
    nth_error f i = Some n -> nth_error (update_nth i g f) i = Some (g n).
Proof.
  induction f as [|x f IH]; intros [|i] n H; simpl in *; try discriminate.
  - now inversion H.
  - now apply IH.
Qed.

Lemma count_nth_zero (q : attrs -> bool) (f : forest) (i : nat) (n : node) :
  count q f = 0 -> nth_error f i = Some n -> count_node q n = 0.
Proof. intros Z H. pose proof (nth_error_count q f i H). lia. Qed.

Lemma find_node_None (q : attrs -> bool) (n : node) :
  count_node q n = 0 -> find_node q n = None.
Proof.
  intros Z. assert (E : count q [n] = 0) by (unfold count; simpl; lia).
  apply querySelector_None_iff in E. unfold querySelector in E. simpl in E.
  now destruct (find_node q n).
Qed.

(** In a forest without a match, a match created inside the [i]-th node is
    the first one. *)
Lemma querySelector_update_nth (q : attrs -> bool) (g : node -> node) :
  forall (f : forest) (i : nat) (n : node) (r : path),
    count q f = 0 -> nth_error f i = Some n ->
    find_node q (g n) = Some r ->
    querySelector q (update_nth i g f) = Some (i :: r).
Proof.
  unfold querySelector.
  induction f as [|x f IH]; intros [|i] n r Z H R; simpl in *;
    try discriminate.
  - inversion H; subst. now rewrite R.
  - assert (Zx : count_node q x = 0) by (unfold count in Z; simpl in Z; lia).
    assert (Zf : count q f = 0) by (unfold count in *; simpl in Z; lia).
    rewrite (find_node_None q x Zx), (IH i n r Zf H R). reflexivity.
Qed.

Lemma get_at_nil p : get_at p [] = None.
Proof. destruct p as [|[|i] p']; reflexivity. Qed.

Lemma get_at_inside p i f n :
  p <> [] -> nth_error f i = Some n -> get_at (i :: p) f = get_at p (childrenOf n).
Proof. intros Hp Hi. destruct p; [congruence|]. simpl. now rewrite Hi. Qed.

(** The control prepended into a forest that had none is what a lookup by
    its identifier finds, as first child of the element it went into. *)
Lemma querySelector_prepend_at (q : attrs -> bool) (ac : attrs) (ccs : forest) :
  q ac = true ->
  forall (p : path) (f : forest) (a : attrs) (cs : forest),
    count q f = 0 ->
    get_at p f = Some (Element a cs) ->
    querySelector q (prepend_at p (Element ac ccs) f) = Some (p ++ [0]).
Proof.
  intros Hc. induction p as [|i p IH]; intros f a cs Z H; [discriminate|].
  simpl in H. destruct (nth_error f i) as [m|] eqn:Hi; [|discriminate].
  pose proof (count_nth_zero q f i Z Hi) as Zm.
  destruct p as [|j p'].
  - inversion H; subst. simpl.
    apply querySelector_update_nth with (n := Element a cs); auto.
    simpl in *. destruct (q a); [lia|]. now rewrite Hc.
  - destruct m as [s|am cm]; [cbn [childrenOf] in H; rewrite get_at_nil in H; discriminate|].
    change (prepend_at (i :: j :: p') (Element ac ccs) f)
      with (update_nth i (withChildren (prepend_at (j :: p') (Element ac ccs))) f).
    change ((i :: j :: p') ++ [0]) with (i :: ((j :: p') ++ [0])).
    apply querySelector_update_nth with (n := Element am cm); auto.
    simpl in *. destruct (q am); [lia|].
    apply (IH cm a cs); [unfold count; lia | exact H].
Qed.

(** Removing what was just prepended gives the forest back. *)
Lemma remove_at_prepend_at (c : node) :
  forall (p : path) (f : forest) (a : attrs) (cs : forest),
    get_at p f = Some (Element a cs) ->
    remove_at (p ++ [0]) (prepend_at p c f) = f.
Proof.
  induction p as [|i p IH]; intros f a cs H; [discriminate|].
  simpl in H. destruct (nth_error f i) as [m|] eqn:Hi; [|discriminate].
  destruct p as [|j p'].
  - inversion H; subst. simpl. rewrite update_nth_twice.
    now apply update_nth_fixed with (n := Element a cs).
  - destruct m as [s|am cm]; [cbn [childrenOf] in H; rewrite get_at_nil in H; discriminate|].
    change (prepend_at (i :: j :: p') c f)
      with (update_nth i (withChildren (prepend_at (j :: p') c)) f).
    change (remove_at ((i :: j :: p') ++ [0]))
      with (update_nth i (withChildren (remove_at ((j :: p') ++ [0])))).
    rewrite update_nth_twice.
    apply update_nth_fixed with (n := Element am cm); [exact Hi|].
    simpl. f_equal. now apply (IH cm a cs).
Qed.

(** The element prepended into keeps its place and gains [c] as first
    child. *)
Lemma get_at_prepend_at (c : node) :
  forall (p : path) (f : forest) (a : attrs) (cs : forest),
    get_at p f = Some (Element a cs) ->
    get_at p (prepend_at p c f) = Some (Element a (c :: cs)).
Proof.
  induction p as [|i p IH]; intros f a cs H; [discriminate|].
  simpl in H. destruct (nth_error f i) as [m|] eqn:Hi; [|discriminate].
  destruct p as [|j p'].
  - inversion H; subst. simpl.
    now rewrite (nth_error_update_nth (withChildren (cons c)) f i Hi).
  - destruct m as [s|am cm]; [cbn [childrenOf] in H; rewrite get_at_nil in H; discriminate|].
    change (prepend_at (i :: j :: p') c f)
      with (update_nth i (withChildren (prepend_at (j :: p') c)) f).
    erewrite get_at_inside;
      [|discriminate|apply nth_error_update_nth; exact Hi].
    simpl childrenOf. now apply (IH cm a cs).
Qed.

Lemma get_at_app :
  forall (p r : path) (f : forest) (n : node),
    get_at p f = Some n -> r <> [] ->
    get_at (p ++ r) f = get_at r (childrenOf n).
Proof.
  induction p as [|i p IH]; intros r f n H Hr; [discriminate|].
  simpl in H. destruct (nth_error f i) as [m|] eqn:Hi; [|discriminate].
  destruct p as [|j p'].
  - inversion H; subst. simpl app. now apply get_at_inside.
  - change ((i :: j :: p') ++ r) with (i :: ((j :: p') ++ r)).
    erewrite get_at_inside; [|discriminate|exact Hi].
    now apply IH.
Qed.

(** *** Removing a sealed element *)

Lemma querySelector_nonempty q f p : querySelector q f = Some p -> p <> [].
Proof.
  intros H ->. destruct (querySelector_sound q f H) as (b & ds & Hg & _).
  discriminate.
Qed.

Lemma remove_at_bump p n l : remove_at (bump p) (n :: l) = n :: remove_at p l.
Proof. destruct p as [|i [|j p']]; reflexivity. Qed.

Lemma remove_at_below p a cs l :
  p <> [] -> remove_at (0 :: p) (Element a cs :: l) = Element a (remove_at p cs) :: l.
Proof. destruct p; [congruence|reflexivity]. Qed.

Lemma removeFirst_Text q s l :
  removeFirst q (Text s :: l) = Text s :: removeFirst q l.
Proof.
  unfold removeFirst. rewrite querySelector_Text.
  destruct (querySelector q l) as [p|]; simpl option_map; cbv iota;
    [apply remove_at_bump|reflexivity].
Qed.

Lemma removeFirst_Element q a cs l :
  removeFirst q (Element a cs :: l) =
  if q a then l
  else match querySelector q cs with
       | Some _ => Element a (removeFirst q cs) :: l
       | None => Element a cs :: removeFirst q l
       end.
Proof.
  unfold removeFirst. rewrite querySelector_Element. destruct (q a) eqn:Hq.
  - reflexivity.
  - destruct (querySelector q cs) as [pc|] eqn:Hc.
    + apply remove_at_below. now apply querySelector_nonempty in Hc.
    + destruct (querySelector q l) as [pl|]; simpl option_map; cbv iota;
        [apply remove_at_bump|reflexivity].
Qed.

Lemma firstMatch_Text q s l : firstMatch q (Text s :: l) = firstMatch q l.
Proof.
  unfold firstMatch. rewrite querySelector_Text.
  destruct (querySelector q l) as [p|]; simpl option_map; cbv iota;
    [apply get_at_bump|reflexivity].
Qed.

Lemma firstMatch_Element q a cs l :
  firstMatch q (Element a cs :: l) =
  if q a then Some (Element a cs)
  else match firstMatch q cs with
       | Some n => Some n
       | None => firstMatch q l
       end.
Proof.
  unfold firstMatch. rewrite querySelector_Element. destruct (q a) eqn:Hq.
  - reflexivity.
  - destruct (querySelector q cs) as [pc|] eqn:Hc.
    + rewrite get_at_below by (now apply querySelector_nonempty in Hc).
      destruct (querySelector_sound q cs Hc) as (b & ds & Hg & _).
      now rewrite Hg.
    + destruct (querySelector q l) as [pl|]; simpl option_map; cbv iota;
        [apply get_at_bump|reflexivity].
Qed.

Lemma firstMatch_None_iff q f : firstMatch q f = None <-> count q f = 0.
Proof.
  rewrite <- querySelector_None_iff. unfold firstMatch.
  destruct (querySelector q f) as [p|] eqn:Hq; [|tauto].
  destruct (querySelector_sound q f Hq) as (b & ds & Hg & _). rewrite Hg.
  split; discriminate.
Qed.

Lemma sealed_Element q r a cs l :
  sealed q r (Element a cs :: l) = true ->
  (q a = true -> r a = false /\ count r cs = 0)
  /\ sealed q r cs = true /\ sealed q r l = true.
Proof.
  unfold sealed. cbn [forallb sealed_node]. intros H.
  apply andb_true_iff in H. destruct H as [H Hl].
  apply andb_true_iff in H. destruct H as [Ha Hcs].
  split; [|split; assumption].
  intros Hq. rewrite Hq in Ha. apply Nat.eqb_eq in Ha.
  cbn [count_node] in Ha. unfold count.
  destruct (r a); [discriminate|]. split; [reflexivity|]. exact Ha.
Qed.

(** Taking the first [q]-element away loses no [r]-element. *)
Lemma count_removeFirst_sealed (q r : attrs -> bool) :
  forall f : forest,
    sealed q r f = true -> count r (removeFirst q f) = count r f.
Proof.
  induction f as [|s l IH|a cs l IHcs IHl] using forest_ind'; intros S.
  - reflexivity.
  - rewrite removeFirst_Text, !count_Text. now apply IH.
  - destruct (sealed_Element q r a cs l S) as (Hq & Scs & Sl).
    rewrite removeFirst_Element. destruct (q a).
    + destruct (Hq eq_refl) as [Ra Rc]. rewrite count_Element, Ra, Rc.
      reflexivity.
    + destruct (querySelector q cs); rewrite !count_Element.
      * now rewrite (IHcs Scs).
      * now rewrite (IHl Sl).
Qed.

(** The first [r]-element stays the first one, at most losing the
    [q]-element from inside it. *)
Lemma firstMatch_removeFirst (q r : attrs -> bool) :
  forall f : forest,
    sealed q r f = true ->
    match firstMatch r f with
    | None => firstMatch r (removeFirst q f) = None
    | Some n =>
        firstMatch r (removeFirst q f) = Some n
        \/ firstMatch r (removeFirst q f) = Some (withChildren (removeFirst q) n)
    end.
Proof.
  induction f as [|s l IH|a cs l IHcs IHl] using forest_ind'; intros S.
  - reflexivity.
  - rewrite removeFirst_Text, !firstMatch_Text. now apply IH.
  - destruct (sealed_Element q r a cs l S) as (Hq & Scs & Sl).
    specialize (IHcs Scs). specialize (IHl Sl).
    rewrite removeFirst_Element, firstMatch_Element. destruct (q a).
    + destruct (Hq eq_refl) as [Ra Rc]. rewrite Ra.
      apply firstMatch_None_iff in Rc. rewrite Rc.
      destruct (firstMatch r l); auto.
    + destruct (querySelector q cs); rewrite firstMatch_Element;
        destruct (r a); auto.
      * destruct (firstMatch r cs) as [n|].
        -- destruct IHcs as [E|E]; rewrite E; auto.
        -- rewrite IHcs. destruct (firstMatch r l); auto.
      * destruct (firstMatch r cs) as [n|]; auto.
Qed.

(** Sealing passes to the children of any element found. *)
Lemma sealed_firstMatch (q r t : attrs -> bool) :
  forall (f : forest) (n : node),
    sealed q r f = true -> firstMatch t f = Some n ->
    sealed q r (childrenOf n) = true.
Proof.
  induction f as [|s l IH|a cs l IHcs IHl] using forest_ind'; intros n S H.
  - discriminate.
  - rewrite firstMatch_Text in H. apply IH; [|exact H].
    unfold sealed in *. simpl in S. exact S.
  - destruct (sealed_Element q r a cs l S) as (_ & Scs & Sl).
    rewrite firstMatch_Element in H. destruct (t a).
    + inversion H; subst. exact Scs.
    + destruct (firstMatch t cs) as [m|] eqn:Hm.
      * inversion H; subst. now apply IHcs.
      * now apply IHl.
Qed.

End Dom.

(* ------------------------------------------------------------------ *)
(** * The script: injection controller, watcher, navigation monitor *)
(* ------------------------------------------------------------------ *)

Module Script.
Import Dom.
Local Open Scope string_scope.
Local Open Scope list_scope.
Local Open Scope Z_scope.

(** ** State *)

(** The callbacks the script hands to [setTimeout]. *)
Inductive callback : Type :=
| ObserverAdd          (* lines 424-427: addReferenceButton() *)
| ObserverRemoveCheck  (* lines 431-436: remove when the bar is gone *)
| NavSettle            (* lines 464-472: re-check after a navigation *)
| InitOuter            (* lines 528-539: setupObserver, then InitInner *)
| InitInner.           (* lines 530-538: first injection attempt *)

Record timer : Type := mkTimer {
  timerId : nat;
  due : Z;
  action : callback
}.

(** What [history.pushState] / [history.replaceState] currently point to. *)
Inductive historyMethod : Type := Original | Wrapped.

Record state : Type := mkState {
  document : forest;
  (* module-level variables, lines 29-33 *)
  buttonAdded : bool;
  observerActive : bool;
  checkInterval : option nat;
  attemptCount : nat;
  lastNavTime : Z;
  (* window globals *)
  convoRefDebounce : option nat;   (* handle of the watcher's timer *)
  convoRefObserver : option bool;  (* the observer, and whether it observes *)
  (* history entry points *)
  pushState : historyMethod;
  replaceState : historyMethod;
  (* the platform's timer queue *)
  timers : list timer;
  nextTimerId : nat
}.

Definition set_document (d : forest) (s : state) : state :=
  mkState d (buttonAdded s) (observerActive s) (checkInterval s)
    (attemptCount s) (lastNavTime s) (convoRefDebounce s)
    (convoRefObserver s) (pushState s) (replaceState s) (timers s)
    (nextTimerId s).

Definition set_buttonAdded (b : bool) (s : state) : state :=
  mkState (document s) b (observerActive s) (checkInterval s)
    (attemptCount s) (lastNavTime s) (convoRefDebounce s)
    (convoRefObserver s) (pushState s) (replaceState s) (timers s)
    (nextTimerId s).

Definition set_lastNavTime (t : Z) (s : state) : state :=
  mkState (document s) (buttonAdded s) (observerActive s) (checkInterval s)
    (attemptCount s) t (convoRefDebounce s)
    (convoRefObserver s) (pushState s) (replaceState s) (timers s)
    (nextTimerId s).

Definition set_convoRefDebounce (h : option nat) (s : state) : state :=
  mkState (document s) (buttonAdded s) (observerActive s) (checkInterval s)
    (attemptCount s) (lastNavTime s) h
    (convoRefObserver s) (pushState s) (replaceState s) (timers s)
    (nextTimerId s).

Definition set_observer (active : bool) (o : option bool) (s : state) : state :=
  mkState (document s) (buttonAdded s) active (checkInterval s)
    (attemptCount s) (lastNavTime s) (convoRefDebounce s)
    o (pushState s) (replaceState s) (timers s)
    (nextTimerId s).

Definition set_checkInterval (h : option nat) (s : state) : state :=
  mkState (document s) (buttonAdded s) (observerActive s) h
    (attemptCount s) (lastNavTime s) (convoRefDebounce s)
    (convoRefObserver s) (pushState s) (replaceState s) (timers s)
    (nextTimerId s).

Definition set_history (p r : historyMethod) (s : state) : state :=
  mkState (document s) (buttonAdded s) (observerActive s) (checkInterval s)
    (attemptCount s) (lastNavTime s) (convoRefDebounce s)
    (convoRefObserver s) p r (timers s)
    (nextTimerId s).

Definition set_timers (ts : list timer) (n : nat) (s : state) : state :=
  mkState (document s) (buttonAdded s) (observerActive s) (checkInterval s)
    (attemptCount s) (lastNavTime s) (convoRefDebounce s)
    (convoRefObserver s) (pushState s) (replaceState s) ts n.

(** ** Timers *)

(** [setTimeout(cb, delay)] at time [now]: a fresh handle, the timer
    queued. *)
Definition setTimeout (cb : callback) (delay now : Z) (s : state)
  : state * nat :=
  let h := nextTimerId s in
  (set_timers (timers s ++ [mkTimer h (now + delay) cb]) (S h) s, h).

(** [clearTimeout(h)] / [clearInterval(h)]: the timer with that handle
    leaves the queue; a stale or missing handle changes nothing. *)
Definition clearTimeout (h : option nat) (s : state) : state :=
  match h with
  | None => s
  | Some i =>
      set_timers (filter (fun t => negb (Nat.eqb (timerId t) i)) (timers s))
        (nextTimerId s) s
  end.

(** ** The injected control (lines 129-131) *)

Definition controlId : string := "tm-reference-chat-button-container".

Definition refButtonContainer : node :=
  Element (mkAttrs "div" (Some controlId) None [])
    [Element
       (mkAttrs "button" (Some "reference-chat-button") None
          ["focus-visible:outline-blue-600"; "w-9"; "h-9"; "rounded-lg";
           "justify-center"; "items-center"; "gap-1.5"; "inline-flex";
           "text-slate-900"; "hover:bg-slate-900/20";
           "active:bg-slate-900/25"; "disabled:text-neutral-400";
           "dark:text-white"; "dark:hover:bg-white/20";
           "dark:active:bg-white/25"; "dark:disabled:text-neutral-500"])
       [Element (mkAttrs "svg" None None ["w-5"; "h-5"])
          [Element (mkAttrs "g" None None [])
             [Element (mkAttrs "path" None None []) [];
              Element (mkAttrs "path" None None []) [];
              Element (mkAttrs "path" None None []) []]]]].

(** An element carrying the control's identifier. *)
Definition is_control (a : attrs) : bool := has_id controlId a.

(** Number of control instances in a document. *)
Definition controls (d : forest) : nat := count is_control d.

(** ** Anchor lookup *)

(** Selector [[data-element-id="chat-input-actions"]]. *)
Definition is_action_bar (a : attrs) : bool :=
  opt_string_eqb (dataElementId a) "chat-input-actions".

(** Selector [.flex.items-center.justify-start]. *)
Definition is_left_side (a : attrs) : bool :=
  has_class "flex" a && has_class "items-center" a
  && has_class "justify-start" a.

(** Lines 93-95. *)
Definition findChatActionBar (d : forest) : option path :=
  querySelector is_action_bar d.

(** Line 120: [actionBar.querySelector(...)], a path below the bar. *)
Definition findLeftSide (actionBar : node) : option path :=
  querySelector is_left_side (childrenOf actionBar).

(** The two lookups of lines 112-124 in one: the path of the left-aligned
    sub-container of the first action bar, none if either lookup fails. *)
Definition locateAnchor (d : forest) : option path :=
  match findChatActionBar d with
  | None => None
  | Some pb =>
      match get_at pb d with
      | None => None
      | Some actionBar =>
          match findLeftSide actionBar with
          | None => None
          | Some pl => Some (pb ++ pl)
          end
      end
  end.

(** ** Injection controller *)

(** Lines 106-110: the first element carrying the control's id leaves the
    document. *)
Definition removeExisting (d : forest) : forest :=
  match getElementById controlId d with
  | Some p => remove_at p d
  | None => d
  end.

(** Lines 103-150.  No DOM call of the body raises on a document, so the
    [catch] branch is not reached; the click listener of lines 138-142 only
    starts the selection flow and leaves this state alone. *)
Definition addReferenceButton (s : state) : state * bool :=
  let d := removeExisting (document s) in
  match findChatActionBar d with
  | None => (set_document d s, false)
  | Some pb =>
      match get_at pb d with
      | None => (set_document d s, false)
      | Some actionBar =>
          match findLeftSide actionBar with
          | None => (set_document d s, false)
          | Some pl =>
              let d' := prepend_at (pb ++ pl) refButtonContainer d in
              (set_buttonAdded true (set_document d' s), true)
          end
      end
  end.

(** Lines 155-162. *)
Definition removeReferenceButton (s : state) : state :=
  match getElementById controlId (document s) with
  | Some p => set_buttonAdded false (set_document (remove_at p (document s)) s)
  | None => s
  end.

(** ** Navigation monitor *)

(** Lines 453-473, with [Date.now()] passed in. *)
Definition handleNavigation (now : Z) (s : state) : state :=
  if now - lastNavTime s <? 500 then s
  else
    let s1 := set_lastNavTime now s in
    let s2 := set_buttonAdded false s1 in
    fst (setTimeout NavSettle 1500 now s2).

(** Lines 464-472: the settle-delay callback. *)
Definition navSettle (s : state) : state :=
  match findChatActionBar (document s) with
  | Some _ => fst (addReferenceButton s)
  | None => removeReferenceButton s
  end.

(** ** Mutation watcher *)

Inductive mutationType : Type := ChildList | Attributes | CharacterData.

Record mutationRecord : Type := mkMutation {
  mutType : mutationType;
  addedNodes : list node;
  removedNodes : list node
}.

(** Lines 399-403 and 410-414: an element that is the action bar or holds
    one. *)
Definition mentionsActionBar (n : node) : bool :=
  match n with
  | Text _ => false
  | Element a cs =>
      is_action_bar a ||
      match querySelector is_action_bar cs with
      | Some _ => true
      | None => false
      end
  end.

(** Lines 392-420: the flags [(shouldCheck, shouldRemove)]; the scan stops
    at the first record that sets either. *)
Fixpoint scanMutations (ms : list mutationRecord) : bool * bool :=
  match ms with
  | [] => (false, false)
  | m :: ms' =>
      match mutType m with
      | ChildList =>
          let shouldCheck := existsb mentionsActionBar (addedNodes m) in
          let shouldRemove := existsb mentionsActionBar (removedNodes m) in
          if shouldCheck || shouldRemove then (shouldCheck, shouldRemove)
          else scanMutations ms'
      | _ => scanMutations ms'
      end
  end.

Definition debounce (cb : callback) (now : Z) (s : state) : state :=
  let s1 := clearTimeout (convoRefDebounce s) s in
  let '(s2, h) := setTimeout cb 500 now s1 in
  set_convoRefDebounce (Some h) s2.

(** Lines 391-438: the observer's callback. *)
Definition observerCallback (ms : list mutationRecord) (now : Z) (s : state)
  : state :=
  let '(shouldCheck, shouldRemove) := scanMutations ms in
  let s1 := if shouldCheck then debounce ObserverAdd now s else s in
  if shouldRemove then debounce ObserverRemoveCheck now s1 else s1.

(** Lines 431-436. *)
Definition observerRemoveCheck (s : state) : state :=
  match findChatActionBar (document s) with
  | None => removeReferenceButton s
  | Some _ => s
  end.

(** Lines 388-447. *)
Definition setupObserver (s : state) : state :=
  if observerActive s then s else set_observer true (Some true) s.

(** ** Cleanup (lines 502-520) *)

(** Truthiness of a variable holding a timer handle: unset and [0] are
    falsy (the platform hands out handles from 1 on). *)
Definition truthyHandle (h : option nat) : bool :=
  match h with
  | Some (S _) => true
  | _ => false
  end.

Definition cleanup (s : state) : state :=
  let s1 := match convoRefObserver s with
            | Some _ => set_observer false (Some false) s
            | None => s
            end in
  let s2 := if truthyHandle (checkInterval s1)
            then set_checkInterval None (clearTimeout (checkInterval s1) s1)
            else s1 in
  let s3 := if truthyHandle (convoRefDebounce s2)
            then clearTimeout (convoRefDebounce s2) s2
            else s2 in
  set_history Original Original s3.

(** ** Initialization (lines 525-539) *)

(** The state once the script body has run at time [now] on document [d]:
    the history methods are wrapped and the first check is queued. *)
Definition init (d : forest) (now : Z) : state :=
  fst (setTimeout InitOuter 2000 now
         (mkState d false false None 0 0 None None Wrapped Wrapped [] 1)).

Definition initInner (now : Z) (s : state) : state :=
  let '(s1, added) := addReferenceButton s in
  if added then s1 else handleNavigation now s1.

Definition initOuter (now : Z) (s : state) : state :=
  fst (setTimeout InitInner 1000 now (setupObserver s)).

(** ** The event loop *)

Definition runCallback (cb : callback) (now : Z) (s : state) : state :=
  match cb with
  | ObserverAdd => fst (addReferenceButton s)
  | ObserverRemoveCheck => observerRemoveCheck s
  | NavSettle => navSettle s
  | InitOuter => initOuter now s
  | InitInner => initInner now s
  end.

(** What can happen to the running script. *)
Inductive event : Type :=
| HostChange (d' : forest)                 (* the host rewrites the DOM *)
| Mutations (ms : list mutationRecord) (now : Z)  (* observer delivery *)
| PushState (now : Z)
| ReplaceState (now : Z)
| PopState (now : Z)
| VisibilityChange (hidden : bool) (now : Z)
| TimerFires (h : nat) (now : Z)
| CallAddButton                            (* window.convoRef.addButton() *)
| CallCleanup.                             (* window.convoRef.cleanup() *)

Definition pending (h : nat) (s : state) : option timer :=
  find (fun t => Nat.eqb (timerId t) h) (timers s).

Definition step (e : event) (s : state) : state :=
  match e with
  | HostChange d' => set_document d' s
  | Mutations ms now =>
      match convoRefObserver s with
      | Some true => observerCallback ms now s
      | _ => s
      end
  | PushState now =>
      match pushState s with
      | Wrapped => handleNavigation now s
      | Original => s
      end
  | ReplaceState now =>
      match replaceState s with
      | Wrapped => handleNavigation now s
      | Original => s
      end
  | PopState now => handleNavigation now s
  | VisibilityChange hidden now =>
      if hidden then s else handleNavigation now s
  | TimerFires h now =>
      match pending h s with
      | Some t => runCallback (action t) now (clearTimeout (Some h) s)
      | None => s
      end
  | CallAddButton => fst (addReferenceButton s)
  | CallCleanup => cleanup s
  end.

(** The host application never creates an element with the control's
    identifier: its changes do not raise the number of controls.  A timer
    fires no earlier than it is due. *)
Definition admissible (e : event) (s : state) : Prop :=
  match e with
  | HostChange d' => (controls d' <= controls (document s))%nat
  | TimerFires h now =>
      match pending h s with
      | Some t => due t <= now
      | None => True
      end
  | _ => True
  end.

Fixpoint run (es : list event) (s : state) : state :=
  match es with
  | [] => s
  | e :: es' => run es' (step e s)
  end.

Fixpoint admissibleRun (es : list event) (s : state) : Prop :=
  match es with
  | [] => True
  | e :: es' => admissible e s /\ admissibleRun es' (step e s)
  end.


(** ** A chat page, runs and states for the statements *)

Definition chatPage : forest :=
  [Element (mkAttrs "main" None None [])
     [Element (mkAttrs "div" None (Some "chat-input-actions") ["flex"])
        [Element (mkAttrs "div" None None
                    ["flex"; "items-center"; "justify-start"])
           [Element (mkAttrs "button" (Some "upload") None []) []];
         Element (mkAttrs "div" None None
                    ["flex"; "items-center"; "justify-end"]) []];
      Element (mkAttrs "textarea" (Some "chat-input-textbox") None []) []]].

(** The same page on a view without the chat toolbar. *)
Definition otherPage : forest :=
  [Element (mkAttrs "main" None None []) [Text "Settings"]].

Definition toolbar : node :=
  Element (mkAttrs "div" None (Some "chat-input-actions") ["flex"]) [].

Definition sampleRun : list event :=
  [ TimerFires 1 2000;
    TimerFires 2 3000;
    CallAddButton;
    HostChange otherPage;
    Mutations [mkMutation ChildList [] [toolbar]] 4000;
    TimerFires 3 4500;
    PushState 5000;
    PushState 5100;
    HostChange chatPage;
    Mutations [mkMutation ChildList [toolbar] []] 5200;
    TimerFires 4 6500;
    TimerFires 5 6600;
    CallCleanup;
    PopState 9000;
    TimerFires 6 10500 ].

(** The state an accepted navigation signal leaves (lines 459-472). *)
Definition accepted (now : Z) (s : state) : state :=
  set_timers (timers s ++ [mkTimer (nextTimerId s) (now + 1500) NavSettle])
    (S (nextTimerId s))
    (set_buttonAdded false (set_lastNavTime now s)).

(** The script on the chat page, observer running, a navigation accepted at
    2500 and a toolbar mutation seen at 2600: the start-up check (handle 2),
    the navigation's settle-delay check (handle 3) and the watcher's
    debounced check (handle 4) are pending. *)
Definition busyState : state :=
  run [TimerFires 1 2000;
       PopState 2500;
       Mutations [mkMutation ChildList [toolbar] []] 2600]
    (init chatPage 0).

(** ** The controller keeps a single control *)

Lemma controls_refButtonContainer : count_node is_control refButtonContainer = 1%nat.
Proof. reflexivity. Qed.

Lemma controls_removeExisting (d : forest) :
  (controls d <= 1)%nat -> controls (removeExisting d) = 0%nat.
Proof.
  unfold controls, removeExisting, getElementById. intros H.
  destruct (querySelector (has_id controlId) d) as [p|] eqn:Hq.
  - destruct (querySelector_sound _ _ Hq) as (b & ds & Hg & Hb).
    pose proof (count_remove_at is_control p d Hg) as E.
    simpl in E. unfold is_control in *. rewrite Hb in E. lia.
  - now apply querySelector_None_iff.
Qed.

Lemma removeExisting_none (d : forest) :
  controls d = 0%nat -> removeExisting d = d.
Proof.
  unfold controls, removeExisting, getElementById. intros H.
  apply querySelector_None_iff in H.
  change (querySelector (has_id controlId) d = None) in H. now rewrite H.
Qed.

(** The two lookups of lines 112-124 name an element of the document. *)
Lemma anchor_sound (d : forest) (pb pl : path) (actionBar : node) :
  findChatActionBar d = Some pb ->
  get_at pb d = Some actionBar ->
  findLeftSide actionBar = Some pl ->
  exists a cs, get_at (pb ++ pl) d = Some (Element a cs)
               /\ is_left_side a = true.
Proof.
  intros _ Hg Hl. unfold findLeftSide in Hl.
  destruct (querySelector_sound _ _ Hl) as (a & cs & Ha & Hq).
  exists a, cs. split; [|exact Hq].
  rewrite (get_at_app pb (r := pl) d Hg); [exact Ha|].
  intros ->. discriminate.
Qed.

Lemma locateAnchor_sound (d : forest) (p : path) :
  locateAnchor d = Some p ->
  exists a cs, get_at p d = Some (Element a cs) /\ is_left_side a = true.
Proof.
  unfold locateAnchor. intros H.
  destruct (findChatActionBar d) as [pb|] eqn:Hb; [|discriminate].
  destruct (get_at pb d) as [bar|] eqn:Hg; [|discriminate].
  destruct (findLeftSide bar) as [pl|] eqn:Hl; [|discriminate].
  inversion H; subst. eapply anchor_sound; eauto.
Qed.

(** [addReferenceButton] in terms of the anchor lookup on the document it
    sees, the one without the previous control. *)
Lemma addReferenceButton_eq (s : state) :
  addReferenceButton s =
  let d := removeExisting (document s) in
  match locateAnchor d with
  | None => (set_document d s, false)
  | Some p =>
      (set_buttonAdded true
         (set_document (prepend_at p refButtonContainer d) s), true)
  end.
Proof.
  unfold addReferenceButton, locateAnchor. cbv zeta.
  destruct (findChatActionBar (removeExisting (document s))); [|reflexivity].
  destruct (get_at p (removeExisting (document s))); [|reflexivity].
  now destruct (findLeftSide n).
Qed.

Lemma controls_addReferenceButton (s : state) :
  (controls (document s) <= 1)%nat ->
  (controls (document (fst (addReferenceButton s))) <= 1)%nat.
Proof.
  intros H. rewrite addReferenceButton_eq. cbv zeta.
  pose proof (controls_removeExisting _ H) as Z.
  destruct (locateAnchor (removeExisting (document s))) as [p|] eqn:Hp; simpl.
  - destruct (locateAnchor_sound _ Hp) as (a & cs & Hg & _).
    unfold controls in *.
    rewrite (count_prepend_at is_control refButtonContainer p _ Hg).
    rewrite Z, controls_refButtonContainer. lia.
  - lia.
Qed.

Lemma controls_removeReferenceButton (s : state) :
  (controls (document (removeReferenceButton s)) <= controls (document s))%nat.
Proof.
  unfold removeReferenceButton, getElementById.
  destruct (querySelector (has_id controlId) (document s)) as [p|] eqn:Hq;
    [|lia].
  destruct (querySelector_sound _ _ Hq) as (b & ds & Hg & _).
  pose proof (count_remove_at is_control p _ Hg). simpl document.
  unfold controls. lia.
Qed.

Lemma document_handleNavigation now s :
  document (handleNavigation now s) = document s.
Proof. unfold handleNavigation. now destruct (_ <? _). Qed.

Lemma document_clearTimeout h s : document (clearTimeout h s) = document s.
Proof. now destruct h. Qed.

Lemma document_debounce cb now s : document (debounce cb now s) = document s.
Proof. unfold debounce. simpl. apply document_clearTimeout. Qed.

Lemma document_observerCallback ms now s :
  document (observerCallback ms now s) = document s.
Proof.
  unfold observerCallback. destruct (scanMutations ms) as [[|] [|]];
    now rewrite ?document_debounce.
Qed.

Lemma document_cleanup s : document (cleanup s) = document s.
Proof.
  unfold cleanup. simpl.
  repeat match goal with
         | |- context [if ?b then _ else _] => destruct b; simpl
         | |- context [match convoRefObserver ?x with _ => _ end] =>
             destruct (convoRefObserver x); simpl
         end;
    rewrite ?document_clearTimeout; simpl;
    rewrite ?document_clearTimeout; reflexivity.
Qed.

Lemma document_setupObserver s : document (setupObserver s) = document s.
Proof. unfold setupObserver. now destruct (observerActive s). Qed.

Lemma controls_runCallback cb now s :
  (controls (document s) <= 1)%nat ->
  (controls (document (runCallback cb now s)) <= 1)%nat.
Proof.
  intros H. destruct cb; simpl.
  - now apply controls_addReferenceButton.
  - unfold observerRemoveCheck. destruct (findChatActionBar _); [exact H|].
    pose proof (controls_removeReferenceButton s). lia.
  - unfold navSettle. destruct (findChatActionBar _).
    + now apply controls_addReferenceButton.
    + pose proof (controls_removeReferenceButton s). lia.
  - unfold initOuter. simpl. now rewrite document_setupObserver.
  - unfold initInner.
    pose proof (controls_addReferenceButton s H) as A.
    destruct (addReferenceButton s) as [s1 [|]]; simpl in *; [exact A|].
    now rewrite document_handleNavigation.
Qed.

Lemma controls_step e s :
  admissible e s ->
  (controls (document s) <= 1)%nat ->
  (controls (document (step e s)) <= 1)%nat.
Proof.
  intros A H. destruct e; cbn [step admissible] in *.
  - simpl. lia.
  - destruct (convoRefObserver s) as [[|]|];
      now rewrite ?document_observerCallback.
  - destruct (pushState s); now rewrite ?document_handleNavigation.
  - destruct (replaceState s); now rewrite ?document_handleNavigation.
  - now rewrite document_handleNavigation.
  - destruct hidden; now rewrite ?document_handleNavigation.
  - destruct (pending h s) as [t|]; [|exact H].
    apply controls_runCallback. exact H.
  - now apply controls_addReferenceButton.
  - now rewrite document_cleanup.
Qed.

Lemma controls_run (es : list event) :
  forall s : state,
    (controls (document s) <= 1)%nat ->
    admissibleRun es s ->
    (controls (document (run es s)) <= 1)%nat.
Proof.
  induction es as [|e es IH]; intros s Hs A; simpl in *.
  - exact Hs.
  - destruct A as [Ae Ar]. apply IH; [|exact Ar]. now apply controls_step.
Qed.

(** C1: along every run of the script -- host rewrites of the document that
    create no element with the control's identifier, observer deliveries,
    navigation signals, timer callbacks, direct calls of
    [addReferenceButton] and [cleanup] -- started on a page with at most one
    element carrying the identifier ['tm-reference-chat-button-container'],
    the document holds at most one such element at every point. *)
Theorem single_control_invariant (d : forest) (now : Z) (es : list event) :
  (controls d <= 1)%nat ->
  admissibleRun es (init d now) ->
  (controls (document (run es (init d now))) <= 1)%nat.
Proof. intros Hd A. apply controls_run; [exact Hd|exact A]. Qed.

(** A run used to exercise the invariant: the first checks inject the
    control, the host re-renders the toolbar away and back, a navigation
    settles, the control is re-requested by hand. *)
Lemma single_control_invariant_witness :
  (controls (document (run sampleRun (init chatPage 0))) <= 1)%nat.
Proof.
  apply single_control_invariant.
  - vm_compute. repeat constructor.
  - vm_compute. repeat split; try discriminate; repeat constructor.
Defined.

(** ** Reconciliation *)

Lemma getElementById_after_add (d : forest) (p : path) a cs :
  controls d = 0%nat ->
  get_at p d = Some (Element a cs) ->
  getElementById controlId (prepend_at p refButtonContainer d) = Some (p ++ [0%nat]).
Proof.
  intros Z Hg. unfold getElementById, refButtonContainer.
  eapply querySelector_prepend_at; [reflexivity|exact Z|exact Hg].
Qed.

Lemma removeExisting_removeFirst (d : forest) :
  removeExisting d = removeFirst is_control d.
Proof. reflexivity. Qed.

Lemma locateAnchor_None_iff (d : forest) :
  locateAnchor d = None <->
  match firstMatch is_action_bar d with
  | None => True
  | Some actionBar => count is_left_side (childrenOf actionBar) = 0%nat
  end.
Proof.
  unfold locateAnchor, firstMatch, findChatActionBar, findLeftSide.
  destruct (querySelector is_action_bar d) as [pb|]; [|tauto].
  destruct (get_at pb d) as [bar|]; [|tauto].
  rewrite <- querySelector_None_iff.
  destruct (querySelector is_left_side (childrenOf bar)); split;
    intros; try discriminate; reflexivity.
Qed.

(** The control the script builds holds neither an action bar nor a
    left-aligned container. *)
Lemma refButtonContainer_sealed :
  sealed_node is_control is_action_bar refButtonContainer = true
  /\ sealed_node is_control is_left_side refButtonContainer = true.
Proof. split; reflexivity. Qed.

(** Taking such a control away does not change whether there is an
    anchor. *)
Lemma locateAnchor_removeExisting (d : forest) :
  sealed is_control is_action_bar d = true ->
  sealed is_control is_left_side d = true ->
  (locateAnchor (removeExisting d) = None <-> locateAnchor d = None).
Proof.
  intros Sb Sl. rewrite removeExisting_removeFirst, !locateAnchor_None_iff.
  pose proof (firstMatch_removeFirst is_control is_action_bar d Sb) as F.
  destruct (firstMatch is_action_bar d) as [bar|] eqn:Hb.
  - pose proof (sealed_firstMatch is_control is_left_side is_action_bar d Sl Hb)
      as Sc.
    destruct F as [E|E]; rewrite E; [tauto|].
    destruct bar as [t|a cs]; [tauto|]. simpl childrenOf in *.
    now rewrite (count_removeFirst_sealed is_control is_left_side cs Sc).
  - rewrite F. tauto.
Qed.

(** C2: [addReferenceButton] started on a document with at most one control
    runs its anchor lookup (lines 112-124) on the document without that
    control.  When the lookup finds nothing the call returns false and no
    control is in the document; when it finds the left-aligned sub-container
    of the action bar the call returns true, exactly one control is in the
    document, and it is the first child of that sub-container.  The lookup
    finds nothing there exactly when it finds nothing on the document as it
    was before the call, provided no control in it holds an action bar or a
    left-aligned container (the script's own control holds neither). *)
Theorem reconcile_postcondition (s : state) :
  (controls (document s) <= 1)%nat ->
  let d := removeExisting (document s) in
  let s' := fst (addReferenceButton s) in
  match locateAnchor d with
  | None =>
      snd (addReferenceButton s) = false /\ controls (document s') = 0%nat
  | Some p =>
      snd (addReferenceButton s) = true
      /\ controls (document s') = 1%nat
      /\ getElementById controlId (document s') = Some (p ++ [0%nat])
      /\ exists a cs,
           is_left_side a = true
           /\ get_at p d = Some (Element a cs)
           /\ get_at p (document s') = Some (Element a (refButtonContainer :: cs))
  end
  /\ (sealed is_control is_action_bar (document s) = true ->
      sealed is_control is_left_side (document s) = true ->
      (locateAnchor d = None <-> locateAnchor (document s) = None)).
Proof.
  intros H d s'. split; [|now apply locateAnchor_removeExisting].
  subst d s'. rewrite addReferenceButton_eq. cbv zeta.
  pose proof (controls_removeExisting _ H) as Z.
  destruct (locateAnchor (removeExisting (document s))) as [p|] eqn:Hp; simpl.
  - destruct (locateAnchor_sound _ Hp) as (a & cs & Hg & Hl).
    split; [reflexivity|]. split; [|split].
    + unfold controls in *.
      rewrite (count_prepend_at is_control refButtonContainer p _ Hg), Z.
      reflexivity.
    + eapply getElementById_after_add; eauto.
    + exists a, cs. split; [exact Hl|]. split; [exact Hg|].
      now apply get_at_prepend_at.
  - split; [reflexivity|exact Z].
Qed.

(** The call on a page that already carries the control. *)
Lemma reconcile_postcondition_witness :
  let s := fst (addReferenceButton (init chatPage 0)) in
  controls (document s) = 1%nat
  /\ locateAnchor (document s) = Some [0; 0; 0]%nat
  /\ snd (addReferenceButton s) = true
  /\ controls (document (fst (addReferenceButton s))) = 1%nat
  /\ getElementById controlId (document (fst (addReferenceButton s)))
     = Some [0; 0; 0; 0]%nat.
Proof.
  cbv zeta.
  assert (H : (controls (document (fst (addReferenceButton (init chatPage 0))))
               <= 1)%nat) by (vm_compute; repeat constructor).
  destruct (reconcile_postcondition _ H) as [R _].
  cbv zeta in R.
  change (locateAnchor
            (removeExisting
               (document (fst (addReferenceButton (init chatPage 0))))))
    with (Some [0; 0; 0]%nat) in R.
  destruct R as (R1 & R2 & R3 & _).
  split; [reflexivity|]. split; [reflexivity|].
  split; [exact R1|]. split; [exact R2|exact R3].
Defined.

(** A bar without the left-aligned sub-container is no anchor: the call
    returns false and leaves no control (lines 121-124). *)
Lemma addReferenceButton_no_left_side (s : state) pb actionBar :
  (controls (document s) <= 1)%nat ->
  findChatActionBar (removeExisting (document s)) = Some pb ->
  get_at pb (removeExisting (document s)) = Some actionBar ->
  findLeftSide actionBar = None ->
  snd (addReferenceButton s) = false
  /\ controls (document (fst (addReferenceButton s))) = 0%nat.
Proof.
  intros H Hb Hg Hl. unfold addReferenceButton. cbv zeta.
  rewrite Hb, Hg, Hl. simpl. split; [reflexivity|].
  now apply controls_removeExisting.
Qed.

(** C3: on a document with at most one control, a second call of
    [addReferenceButton] right after the first returns the same value and
    leaves the same state -- document, control placement and flags -- as
    the first call alone. *)
Theorem addReferenceButton_idempotent (s : state) :
  (controls (document s) <= 1)%nat ->
  addReferenceButton (fst (addReferenceButton s)) = addReferenceButton s.
Proof.
  intros H. rewrite (addReferenceButton_eq s). cbv zeta.
  pose proof (controls_removeExisting _ H) as Z.
  destruct (locateAnchor (removeExisting (document s))) as [p|] eqn:Hp.
  - destruct (locateAnchor_sound _ Hp) as (a & cs & Hg & _).
    rewrite addReferenceButton_eq. cbn [fst document set_buttonAdded set_document].
    cbv zeta.
    assert (E : removeExisting
                  (prepend_at p refButtonContainer (removeExisting (document s)))
                = removeExisting (document s)).
    { unfold removeExisting at 1.
      rewrite (@getElementById_after_add _ p a cs Z Hg).
      now apply remove_at_prepend_at with (a := a) (cs := cs). }
    rewrite E, Hp. reflexivity.
  - rewrite addReferenceButton_eq. cbn [fst document set_document]. cbv zeta.
    rewrite (@removeExisting_none _ Z), Hp. reflexivity.
Qed.

Lemma addReferenceButton_idempotent_witness :
  addReferenceButton (fst (addReferenceButton (init chatPage 0)))
  = addReferenceButton (init chatPage 0).
Proof.
  apply addReferenceButton_idempotent. vm_compute. repeat constructor.
Defined.

(** ** Navigation rate limiting *)

Lemma accepted_neq now s : accepted now s <> s.
Proof.
  intros E. apply (f_equal nextTimerId) in E. simpl in E.
  now apply Nat.neq_succ_diag_l in E.
Qed.

(** C8: a navigation signal at time [now] is ignored -- the state, its timer
    queue included, is left as it was -- exactly when [now] is less than
    500ms after the last accepted signal; otherwise it is accepted: the time
    is recorded and one settle-delay check is queued.  So after an accepted
    signal at [t] a signal at [t + 100] is ignored and a signal at [t + 600]
    is accepted. *)
Theorem navigation_rate_limit (s : state) (now : Z) :
  (handleNavigation now s = s <-> now - lastNavTime s < 500)
  /\ (handleNavigation now s = accepted now s <-> 500 <= now - lastNavTime s)
  /\ (500 <= now - lastNavTime s ->
      handleNavigation (now + 100) (handleNavigation now s)
      = handleNavigation now s
      /\ handleNavigation (now + 600) (handleNavigation now s)
         = accepted (now + 600) (accepted now s)).
Proof.
  assert (A : forall t x, 500 <= t - lastNavTime x ->
                          handleNavigation t x = accepted t x).
  { intros t x Hx. unfold handleNavigation.
    destruct (Z.ltb_spec (t - lastNavTime x) 500); [lia|reflexivity]. }
  assert (I : forall t x, t - lastNavTime x < 500 -> handleNavigation t x = x).
  { intros t x Hx. unfold handleNavigation.
    destruct (Z.ltb_spec (t - lastNavTime x) 500); [reflexivity|lia]. }
  split; [|split].
  - split; [|apply I]. intros E.
    destruct (Z.lt_ge_cases (now - lastNavTime s) 500) as [L|G]; [exact L|].
    rewrite (A _ _ G) in E. now apply accepted_neq in E.
  - split; [|apply A]. intros E.
    destruct (Z.lt_ge_cases (now - lastNavTime s) 500) as [L|G]; [|exact G].
    rewrite (I _ _ L) in E. symmetry in E. now apply accepted_neq in E.
  - intros G. rewrite (A _ _ G). split.
    + apply I. simpl. lia.
    + apply A. simpl. lia.
Qed.

Lemma navigation_rate_limit_witness :
  handleNavigation 1100 (handleNavigation 1000 (init chatPage 0))
  = handleNavigation 1000 (init chatPage 0)
  /\ handleNavigation 1600 (handleNavigation 1000 (init chatPage 0))
     = accepted 1600 (accepted 1000 (init chatPage 0)).
Proof.
  destruct (navigation_rate_limit (init chatPage 0) 1000) as (_ & _ & P).
  apply P. vm_compute. discriminate.
Defined.

(** ** Cleanup *)

Lemma pending_clearTimeout (h : nat) (s : state) :
  pending h (clearTimeout (Some h) s) = None.
Proof.
  unfold pending, clearTimeout. simpl.
  induction (timers s) as [|t ts IH]; [reflexivity|].
  simpl. destruct (Nat.eqb (timerId t) h) eqn:E; simpl; [exact IH|].
  now rewrite E.
Qed.

Lemma find_filter_other (h : nat) (ts : list timer) :
  find (fun t => Nat.eqb (timerId t) h)
    (filter (fun t => negb (Nat.eqb (timerId t) h)) ts) = None.
Proof.
  induction ts as [|t ts IH]; [reflexivity|].
  simpl. destruct (Nat.eqb (timerId t) h) eqn:E; simpl; [exact IH|].
  now rewrite E.
Qed.

Lemma In_filter_other (i : nat) (ts : list timer) (t : timer) :
  In t ts -> i <> timerId t ->
  In t (filter (fun t => negb (Nat.eqb (timerId t) i)) ts).
Proof.
  intros Ht Hi. apply filter_In. split; [exact Ht|].
  apply negb_true_iff, Nat.eqb_neq. congruence.
Qed.

(** What [cleanup] does release: the history entry points, the observer,
    the watcher's pending timer. *)
Lemma cleanup_releases (s : state) :
  pushState (cleanup s) = Original
  /\ replaceState (cleanup s) = Original
  /\ convoRefObserver (cleanup s) <> Some true
  /\ forall h, convoRefDebounce s = Some (S h) ->
               pending (S h) (cleanup s) = None.
Proof.
  split; [reflexivity|]. split; [reflexivity|].
  destruct s as [d ba oa ci ac lnt deb obs ps rs ts nid].
  split.
  - destruct obs, ci as [[|c]|], deb as [[|k]|]; simpl; discriminate.
  - intros h Hd. simpl in Hd. subst deb.
    destruct obs, ci as [[|c]|]; unfold pending; simpl;
      apply find_filter_other.
Qed.

(** A timer whose handle the script kept nowhere -- the settle-delay timer
    of [handleNavigation], the two start-up timers -- stays queued. *)
Lemma cleanup_keeps_untracked (s : state) (t : timer) :
  In t (timers s) ->
  convoRefDebounce s <> Some (timerId t) ->
  checkInterval s <> Some (timerId t) ->
  In t (timers (cleanup s)).
Proof.
  destruct s as [d ba oa ci ac lnt deb obs ps rs ts nid]. simpl.
  intros Ht Hd Hc.
  destruct obs, ci as [[|c]|], deb as [[|k]|]; simpl;
    repeat (apply In_filter_other; [|congruence]); exact Ht.
Qed.

(** C9: [cleanup] called while a navigation's settle-delay check is pending
    disconnects the observer, restores both history entry points and clears
    the watcher's timer, but the settle-delay timer and the start-up timer
    stay queued; when the settle-delay timer fires after the cleanup it
    injects the control into a document that had none. *)
Theorem cleanup_leaves_navigation_timer :
  let s := cleanup busyState in
  convoRefObserver busyState = Some true
  /\ convoRefObserver s = Some false
  /\ pushState s = Original /\ replaceState s = Original
  /\ pending 4 busyState = Some (mkTimer 4 3100 ObserverAdd)
  /\ pending 4 s = None
  /\ pending 3 s = Some (mkTimer 3 4000 NavSettle)
  /\ pending 2 s = Some (mkTimer 2 3000 InitInner)
  /\ controls (document s) = 0%nat
  /\ controls (document (step (TimerFires 3 4000) s)) = 1%nat.
Proof. vm_compute. repeat split; reflexivity. Qed.

End Script.


(* ------------------------------------------------------------------ *)
(** * JavaScript values *)
(* ------------------------------------------------------------------ *)

Module Js.
Local Open Scope string_scope.
Local Open Scope list_scope.

(** Stored records and their parts.  Numbers are the integral ones (time
    stamps, identifiers, counts); a string is its sequence of code units,
    each written as one character. *)
#[local] Unset Elimination Schemes.
Inductive value : Type :=
| Undefined
| Null
| Bool (b : bool)
| Num (n : Z)
| Str (s : string)
| Arr (items : list value)
| Obj (fields : list (string * value)).
#[local] Set Elimination Schemes.

Inductive error : Type :=
| TypeError (message : string)
| Error (message : string)
| DOMException (name : string).

(** How a piece of code ends: with a value, or by throwing. *)
Inductive completion (A : Type) : Type :=
| Normal (a : A)
| Throw (e : error).
Arguments Throw {A} e.

(** ToBoolean. *)
Definition truthy (v : value) : bool :=
  match v with
  | Undefined | Null => false
  | Bool b => b
  | Num n => negb (Z.eqb n 0)
  | Str s => negb (String.eqb s "")
  | Arr _ | Obj _ => true
  end.

Fixpoint lookup (k : string) (fields : list (string * value)) : value :=
  match fields with
  | [] => Undefined
  | (k', v) :: rest => if String.eqb k' k then v else lookup k rest
  end.

(** [v.k] for a data property [k] of a stored record: the field of an
    object, [undefined] on an array or a primitive.  (On [undefined] and
    [null] the read throws; the code guards every read but [msg.role], see
    [formatMessage].) *)
Definition prop (k : string) (v : value) : value :=
  match v with
  | Obj fields => lookup k fields
  | _ => Undefined
  end.

Definition isUndefined (v : value) : bool :=
  match v with
  | Undefined => true
  | _ => false
  end.

(** [Array.isArray(v)]. *)
Definition isArray (v : value) : bool :=
  match v with
  | Arr _ => true
  | _ => false
  end.

(** [typeof v === 'object']. *)
Definition typeofObject (v : value) : bool :=
  match v with
  | Null | Arr _ | Obj _ => true
  | _ => false
  end.

(** [v === lit] for a string literal. *)
Definition strictEqStr (v : value) (lit : string) : bool :=
  match v with
  | Str s => String.eqb s lit
  | _ => false
  end.

Definition LF : string := String (ascii_of_nat 10) EmptyString.

Fixpoint joinWith (sep : string) (l : list string) : string :=
  match l with
  | [] => ""
  | [x] => x
  | x :: rest => x ++ sep ++ joinWith sep rest
  end.

(** ToString, on the values a stored record is made of. *)
Fixpoint toStringJs (v : value) : string :=
  match v with
  | Undefined => "undefined"
  | Null => "null"
  | Bool true => "true"
  | Bool false => "false"
  | Num n => DecimalString.NilZero.string_of_int (Z.to_int n)
  | Str s => s
  | Arr items =>
      joinWith ","
        (map (fun x => match x with
                       | Undefined | Null => ""
                       | _ => toStringJs x
                       end) items)
  | Obj _ => "[object Object]"
  end.

(** [items.join(sep)]: [undefined] and [null] count as empty. *)
Definition join (sep : string) (items : list value) : string :=
  joinWith sep
    (map (fun x => match x with
                   | Undefined | Null => ""
                   | _ => toStringJs x
                   end) items).

(** White space and line terminators among the code units below 256. *)
Definition isWhiteSpace (c : ascii) : bool :=
  let n := nat_of_ascii c in
  (Nat.leb 9 n && Nat.leb n 13) || Nat.eqb n 32 || Nat.eqb n 160.

Fixpoint trimStart (s : string) : string :=
  match s with
  | EmptyString => EmptyString
  | String c rest => if isWhiteSpace c then trimStart rest else s
  end.

Fixpoint trimEnd (s : string) : string :=
  match s with
  | EmptyString => EmptyString
  | String c rest =>
      match trimEnd rest with
      | EmptyString => if isWhiteSpace c then EmptyString
                       else String c EmptyString
      | kept => String c kept
      end
  end.

(** [s.trim()]. *)
Definition trim (s : string) : string := trimEnd (trimStart s).

End Js.

(* ------------------------------------------------------------------ *)
(** * Storage reader *)
(* ------------------------------------------------------------------ *)

Module Storage.
Import Js.
Local Open Scope string_scope.
Local Open Scope list_scope.

(** What the platform answers: a request either fails with an error (shown
    by its text) or succeeds. *)
Inductive request (A : Type) : Type :=
| Failed (err : string)
| Succeeded (result : A).
Arguments Failed {A} err.

(** A database as this code meets it: its object stores by name, each with
    the answer [getAll()] gives. *)
Record database : Type := mkDatabase {
  objectStores : list (string * request (list value))
}.

(** The storage engine: what [indexedDB.open(name)] answers. *)
Definition indexedDB := string -> request database.

Inductive connection : Type := NeverOpened | Open | Closed.

Fixpoint objectStore (name : string)
  (stores : list (string * request (list value)))
  : option (request (list value)) :=
  match stores with
  | [] => None
  | (n, r) :: rest => if String.eqb n name then Some r else objectStore name rest
  end.

(** The filter of lines 365-370. *)
Definition isChat (entry : value) : bool :=
  truthy entry
  && typeofObject entry
  && ((negb (isUndefined (prop "chatTitle" entry))
       && negb (isUndefined (prop "messages" entry)))
      || (truthy (prop "id" entry)
          && truthy (prop "messages" entry)
          && isArray (prop "messages" entry))).

(** Lines 343-379.  The result is paired with the state the connection is
    left in.  The [catch] of lines 375-378 logs and rethrows. *)
Definition getChatsFromIndexedDB (idb : indexedDB)
  : completion (list value) * connection :=
  match idb "keyval-store" with
  | Failed err =>
      (Throw (Error ("Failed to open keyval-store database: " ++ err)),
       NeverOpened)
  | Succeeded db =>
      match objectStore "keyval" (objectStores db) with
      | None =>
          (* db.transaction(['keyval'], 'readonly') throws *)
          (Throw (DOMException "NotFoundError"), Open)
      | Some (Failed err) =>
          (Throw (Error ("Failed to get entries from store: " ++ err)), Open)
      | Some (Succeeded allEntries) =>
          let chats := filter isChat allEntries in
          (* db.close() *)
          (Normal chats, Closed)
      end
  end.

(** The storage engine holding one database ['keyval-store'] with one
    object store ['keyval'] that enumerates [entries]. *)
Definition storeOf (entries : list value) : indexedDB :=
  fun _ => Succeeded (mkDatabase [("keyval", Succeeded entries)]).

(** The words of the specification: an entry resembles a conversation when
    it has a messages sequence, plus a title field or an identifier field. *)
Definition hasField (k : string) (entry : value) : bool :=
  negb (isUndefined (prop k entry)).

Definition resemblesConversation (entry : value) : bool :=
  isArray (prop "messages" entry)
  && (hasField "chatTitle" entry || hasField "id" entry).

(** An entry whose [messages], when set, is a sequence and whose [id], when
    set, is truthy. *)
Definition tidy (entry : value) : bool :=
  (isUndefined (prop "messages" entry) || isArray (prop "messages" entry))
  && (isUndefined (prop "id" entry) || truthy (prop "id" entry)).

(** Entries for the examples. *)
Definition planChat : value :=
  Obj [("chatTitle", Str "Plan");
       ("messages",
         Arr [Obj [("role", Str "user"); ("content", Str "Hi")];
              Obj [("role", Str "assistant"); ("content", Str "Hello")]])].

Definition idChat : value :=
  Obj [("id", Str "c-2"); ("messages", Arr [])].

Definition settingsEntry : value :=
  Obj [("theme", Str "dark")].

(** A titled entry whose [messages] is no sequence. *)
Definition looseEntry : value :=
  Obj [("chatTitle", Str "Notes"); ("messages", Str "none")].

(** A conversation whose identifier is the number [0]. *)
Definition zeroIdChat : value :=
  Obj [("id", Num 0); ("messages", Arr [])].

(** A store that opens and whose enumeration then fails. *)
Definition unreadableStore : indexedDB :=
  fun _ => Succeeded (mkDatabase [("keyval", Failed "UnknownError")]).

(** ** Filtering *)

(** What the filter of lines 365-370 accepts, spelled out. *)
Lemma isChat_spec (entry : value) :
  isChat entry = true <->
  exists fields,
    entry = Obj fields
    /\ ((lookup "chatTitle" fields <> Undefined
         /\ lookup "messages" fields <> Undefined)
        \/ (truthy (lookup "id" fields) = true
            /\ exists items, lookup "messages" fields = Arr items)).
Proof.
  unfold isChat. split.
  - intros H. destruct entry as [| |b|n|s|items|fields]; simpl in H;
      rewrite ?andb_false_r in H; try discriminate.
    exists fields. split; [reflexivity|].
    apply orb_true_iff in H. destruct H as [H|H].
    + left. apply andb_true_iff in H. destruct H as [H1 H2].
      split; intros E; rewrite E in *; discriminate.
    + right. apply andb_true_iff in H. destruct H as [H1 H3].
      apply andb_true_iff in H1. destruct H1 as [H1 _].
      split; [exact H1|].
      destruct (lookup "messages" fields); try discriminate. eauto.
  - intros (fields & -> & [[H1 H2]|[H1 [items H2]]]); simpl.
    + destruct (lookup "chatTitle" fields); try congruence;
        destruct (lookup "messages" fields); try congruence; reflexivity.
    + rewrite H1, H2. simpl. apply orb_true_r.
Qed.

(** On tidy entries the filter and the specification's words agree. *)
Lemma isChat_tidy (entry : value) :
  tidy entry = true -> isChat entry = resemblesConversation entry.
Proof.
  unfold tidy, isChat, resemblesConversation, hasField.
  destruct entry as [| |b|n|s|items|fields]; simpl;
    rewrite ?andb_false_r; try reflexivity.
  intros H.
  destruct (lookup "messages" fields) as [| |b|n|s|items|fs];
    destruct (lookup "id" fields) as [| |b'|n'|s'|items'|fs'];
    destruct (lookup "chatTitle" fields); simpl in *;
    try reflexivity; try discriminate;
    repeat match goal with
           | |- context [negb ?x] => destruct x; simpl in *
           | b0 : bool |- _ => destruct b0; simpl in *
           end; try reflexivity; try discriminate.
Qed.

Lemma filter_ext_Forall (A : Type) (f g : A -> bool) (l : list A) :
  Forall (fun x => f x = g x) l -> filter f l = filter g l.
Proof.
  induction 1 as [|x l Hx _ IH]; [reflexivity|]. simpl. now rewrite Hx, IH.
Qed.

(** A filtered list keeps the order of the list it came from. *)
Inductive sublist (A : Type) : list A -> list A -> Prop :=
| sublist_nil : sublist [] []
| sublist_skip x l l' : sublist l l' -> sublist l (x :: l')
| sublist_keep x l l' : sublist l l' -> sublist (x :: l) (x :: l').

Lemma filter_sublist (A : Type) (f : A -> bool) (l : list A) :
  sublist (filter f l) l.
Proof.
  induction l as [|x l IH]; simpl; [constructor|].
  destruct (f x); now constructor.
Qed.

(** C6, as the code has it: from a store that opens and enumerates
    [entries], [getChatsFromIndexedDB] returns -- unchanged, in the order of
    the enumeration, without raising on the others -- exactly the entries
    that are objects with both [chatTitle] and [messages] set, or with a
    truthy [id] and a [messages] array, and closes the connection.  When
    every entry is tidy ([messages], if set, is a sequence; [id], if set, is
    truthy) these are exactly the entries that resemble a conversation. *)
Theorem getChats_filters (entries : list value) :
  let chats := filter isChat entries in
  getChatsFromIndexedDB (storeOf entries) = (Normal chats, Closed)
  /\ sublist chats entries
  /\ (forall entry, In entry chats <-> In entry entries /\ isChat entry = true)
  /\ (Forall (fun entry => tidy entry = true) entries ->
      chats = filter resemblesConversation entries).
Proof.
  cbv zeta. split; [reflexivity|]. split; [apply filter_sublist|]. split.
  - intros entry. apply filter_In.
  - intros T. apply filter_ext_Forall.
    eapply Forall_impl; [|exact T]. intros entry. apply isChat_tidy.
Qed.

Lemma getChats_filters_witness :
  getChatsFromIndexedDB (storeOf [settingsEntry; planChat; Num 7; idChat])
  = (Normal [planChat; idChat], Closed)
  /\ [planChat; idChat]
     = filter resemblesConversation [settingsEntry; planChat; Num 7; idChat].
Proof.
  destruct (getChats_filters [settingsEntry; planChat; Num 7; idChat])
    as (R & _ & _ & T).
  split; [exact R|]. apply T. repeat constructor.
Defined.

(** C6, as stated, fails: a titled entry whose [messages] is no sequence is
    returned, and a conversation whose identifier is [0] is left out. *)
Lemma getChats_not_resembles :
  fst (getChatsFromIndexedDB (storeOf [looseEntry; zeroIdChat]))
  = Normal [looseEntry]
  /\ filter resemblesConversation [looseEntry; zeroIdChat] = [zeroIdChat]
  /\ fst (getChatsFromIndexedDB (storeOf [looseEntry; zeroIdChat]))
     <> Normal (filter resemblesConversation [looseEntry; zeroIdChat]).
Proof. split; [reflexivity|]. split; [reflexivity|]. discriminate. Qed.

(** ** Connection handling *)

(** The paths of [getChatsFromIndexedDB], one by one. *)
Lemma getChats_paths (idb : indexedDB) :
  match idb "keyval-store" with
  | Failed err =>
      getChatsFromIndexedDB idb
      = (Throw (Error ("Failed to open keyval-store database: " ++ err)),
         NeverOpened)
  | Succeeded db =>
      match objectStore "keyval" (objectStores db) with
      | Some (Succeeded allEntries) =>
          getChatsFromIndexedDB idb = (Normal (filter isChat allEntries), Closed)
      | Some (Failed err) =>
          getChatsFromIndexedDB idb
          = (Throw (Error ("Failed to get entries from store: " ++ err)), Open)
      | None =>
          getChatsFromIndexedDB idb = (Throw (DOMException "NotFoundError"), Open)
      end
  end.
Proof.
  unfold getChatsFromIndexedDB. destruct (idb "keyval-store") as [err|db];
    [reflexivity|].
  destruct (objectStore "keyval" (objectStores db)) as [[err|allEntries]|];
    reflexivity.
Qed.

(** C7: when the store opens and [getAll()] then fails, the call throws the
    read error and leaves the connection open: [db.close()] sits on the
    success path only (line 373). *)
Theorem getChats_leaves_connection_open :
  getChatsFromIndexedDB unreadableStore
  = (Throw (Error "Failed to get entries from store: UnknownError"), Open).
Proof. reflexivity. Qed.

End Storage.

(* ------------------------------------------------------------------ *)
(** * Selection flow: ordering and formatting (handleButtonClick) *)
(* ------------------------------------------------------------------ *)

Module Selection.
Import Js.
Local Open Scope string_scope.
Local Open Scope list_scope.

(** ** Message formatting (lines 263-281) *)

(** Line 266. *)
Definition roleLabel (msg : value) : option string :=
  if strictEqStr (prop "role" msg) "user" then Some "User"
  else if strictEqStr (prop "role" msg) "assistant" then Some "Assistant"
  else None.

(** The filter callback of line 272. *)
Definition isTextPart (part : value) : bool :=
  truthy part && strictEqStr (prop "type" part) "text"
  && truthy (prop "text" part).

(** Lines 267-276: the variable [contentText] for a message content. *)
Definition contentText (content : value) : value :=
  if truthy content then
    match content with
    | Str s => Str s
    | Arr parts => Str (join LF (map (prop "text") (filter isTextPart parts)))
    | Obj _ =>
        if truthy (prop "text" content) then prop "text" content else Str ""
    | _ => Str ""
    end
  else Str "".

(** One round of the [forEach] of lines 265-280, from the text gathered so
    far.  Reading [msg.role] of [undefined] or [null] throws, and so does
    [contentText.trim()] when [contentText] is no string. *)
Definition formatMessage (formattedText : string) (msg : value)
  : completion string :=
  match msg with
  | Undefined | Null => Throw (TypeError "Cannot read properties of role")
  | _ =>
      let contentText := contentText (prop "content" msg) in
      match roleLabel msg with
      | None => Normal formattedText
      | Some role =>
          if truthy contentText then
            match contentText with
            | Str s =>
                if negb (String.eqb (trim s) "")
                then Normal (formattedText ++ role ++ ": " ++ trim s ++ LF ++ LF)%string
                else Normal formattedText
            | _ => Throw (TypeError "contentText.trim is not a function")
            end
          else Normal formattedText
      end
  end.

Fixpoint formatMessages (formattedText : string) (messages : list value)
  : completion string :=
  match messages with
  | [] => Normal formattedText
  | msg :: rest =>
      match formatMessage formattedText msg with
      | Normal text => formatMessages text rest
      | Throw e => Throw e
      end
  end.

(** Lines 263-281: [formattedText] for the selected record. *)
Definition formatChat (chatData : value) : completion string :=
  match prop "messages" chatData with
  | Arr messages => formatMessages "" messages
  | _ => Normal ""
  end.

(** Parts for the examples. *)
Definition textPart (t : string) : value :=
  Obj [("type", Str "text"); ("text", Str t)].

Definition imagePart : value := Obj [("type", Str "image")].

(** The three content shapes: a string, a sequence, an object with a
    (truthy) [text]. *)
Definition recognizedShape (content : value) : bool :=
  match content with
  | Str _ | Arr _ => true
  | Obj fields => truthy (lookup "text" fields)
  | _ => false
  end.

(** ** Ordering (line 177) *)

Section Ordering.

(** [Date.parse]: the time value of a date string, none when it is no
    date. *)
Variable parseDate : string -> option Z.

(** TimeClip. *)
Definition timeClip (t : Z) : option Z :=
  if Z.leb (Z.abs t) 8640000000000000 then Some t else None.

(** The time value of [new Date(v)]; none stands for an invalid date. *)
Definition newDate (v : value) : option Z :=
  match v with
  | Undefined => None
  | Null => Some 0%Z
  | Bool b => Some (if b then 1 else 0)%Z
  | Num n => timeClip n
  | Str s => parseDate s
  | Arr _ | Obj _ => parseDate (toStringJs v)
  end.

(** [x.updatedAt || x.createdAt || 0]. *)
Definition sortKey (chat : value) : value :=
  if truthy (prop "updatedAt" chat) then prop "updatedAt" chat
  else if truthy (prop "createdAt" chat) then prop "createdAt" chat
  else Num 0.

Definition sortTime (chat : value) : option Z := newDate (sortKey chat).

(** The comparator: [new Date(key b) - new Date(key a)], none for NaN. *)
Definition compareChats (a b : value) : option Z :=
  match sortTime b, sortTime a with
  | Some tb, Some ta => Some (tb - ta)%Z
  | _, _ => None
  end.

(** SortCompare: NaN counts as [+0]. *)
Definition sortCompare (a b : value) : Z :=
  match compareChats a b with
  | Some v => v
  | None => 0%Z
  end.

(** [Array.prototype.sort] is stable; with a consistent comparator its
    result is the one stable insertion gives. *)
Fixpoint insertChat (x : value) (sorted : list value) : list value :=
  match sorted with
  | [] => [x]
  | y :: rest =>
      if Z.ltb 0 (sortCompare x y) then y :: insertChat x rest
      else x :: y :: rest
  end.

Definition sortChats (chats : list value) : list value :=
  fold_right insertChat [] chats.

(** The key in the words of the specification: [updatedAt], [createdAt] when that is
    absent, the epoch when both are. *)
Definition statedKey (chat : value) : value :=
  if negb (isUndefined (prop "updatedAt" chat)) then prop "updatedAt" chat
  else if negb (isUndefined (prop "createdAt" chat)) then prop "createdAt" chat
  else Num 0.

Definition statedTime (chat : value) : option Z := newDate (statedKey chat).

(** A record whose key reads as the time [t]. *)
Definition sameTime (t : Z) (chat : value) : bool :=
  match sortTime chat with
  | Some tc => Z.eqb tc t
  | None => false
  end.

(** Newest first with respect to a time reading. *)
Definition newestFirst (time : value -> option Z) (chats : list value) : Prop :=
  StronglySorted
    (fun a b => exists ta tb, time a = Some ta /\ time b = Some tb /\ (tb <= ta)%Z)
    chats.

(** *** The sort gives the records newest first *)

Lemma insertChat_perm (x : value) (l : list value) :
  Permutation (x :: l) (insertChat x l).
Proof.
  induction l as [|y l IH]; simpl; [reflexivity|].
  destruct (Z.ltb 0 (sortCompare x y)); [|reflexivity].
  rewrite perm_swap. now apply perm_skip.
Qed.

Lemma sortChats_perm (chats : list value) :
  Permutation chats (sortChats chats).
Proof.
  induction chats as [|x l IH]; simpl; [reflexivity|].
  rewrite <- insertChat_perm. now apply perm_skip.
Qed.

Definition dated (chat : value) : Prop := sortTime chat <> None.

Definition notOlder (a b : value) : Prop :=
  exists ta tb, sortTime a = Some ta /\ sortTime b = Some tb /\ (tb <= ta)%Z.

Lemma notOlder_trans a b c : notOlder a b -> notOlder b c -> notOlder a c.
Proof.
  intros (ta & tb & Ha & Hb & H1) (tb' & tc & Hb' & Hc & H2).
  rewrite Hb in Hb'. inversion Hb'; subst.
  exists ta, tc. repeat split; try assumption. lia.
Qed.

Lemma insertChat_Forall (P : value -> Prop) x l :
  P x -> Forall P l -> Forall P (insertChat x l).
Proof.
  intros Hx Hl. eapply Permutation_Forall; [apply insertChat_perm|].
  now constructor.
Qed.

Lemma insertChat_sorted (x : value) (l : list value) :
  dated x -> Forall dated l ->
  StronglySorted notOlder l -> StronglySorted notOlder (insertChat x l).
Proof.
  intros Hx Hl Hs. induction Hs as [|y l Hs IH Hy]; simpl.
  - repeat constructor.
  - inversion Hl as [|? ? Dy Dl]; subst.
    unfold dated in Hx, Dy.
    destruct (sortTime x) as [tx|] eqn:Ex; [|congruence].
    destruct (sortTime y) as [ty|] eqn:Ey; [|congruence].
    unfold sortCompare, compareChats. rewrite Ex, Ey.
    destruct (Z.ltb_spec 0 (ty - tx)) as [L|G].
    + constructor; [now apply IH|].
      apply insertChat_Forall; [|exact Hy].
      exists ty, tx. repeat split; try assumption. lia.
    + assert (Hxy : notOlder x y)
        by (exists tx, ty; repeat split; try assumption; lia).
      constructor; [now constructor|].
      constructor; [exact Hxy|].
      eapply Forall_impl; [|exact Hy]. intros c Hc.
      now apply notOlder_trans with y.
Qed.

Lemma sortChats_Forall (P : value -> Prop) (chats : list value) :
  Forall P chats -> Forall P (sortChats chats).
Proof. intros H. eapply Permutation_Forall; [apply sortChats_perm|exact H]. Qed.

Lemma sortChats_sorted (chats : list value) :
  Forall dated chats -> StronglySorted notOlder (sortChats chats).
Proof.
  induction 1 as [|x l Hx Hl IH]; simpl; [constructor|].
  apply insertChat_sorted; [exact Hx|now apply sortChats_Forall|exact IH].
Qed.

(** Records of one time keep the order they were retrieved in. *)
Lemma insertChat_stable (t : Z) (x : value) (l : list value) :
  dated x -> Forall dated l ->
  filter (sameTime t) (insertChat x l) = filter (sameTime t) (x :: l).
Proof.
  intros Hx Hl. induction Hl as [|y l Dy Dl IH]; [reflexivity|].
  cbn [insertChat]. unfold dated in Hx, Dy.
  destruct (sortTime x) as [tx|] eqn:Ex; [|congruence].
  destruct (sortTime y) as [ty|] eqn:Ey; [|congruence].
  unfold sortCompare, compareChats. rewrite Ex, Ey.
  destruct (Z.ltb_spec 0 (ty - tx)) as [L|G]; [|reflexivity].
  assert (Sx : sameTime t x = Z.eqb tx t) by (unfold sameTime; now rewrite Ex).
  assert (Sy : sameTime t y = Z.eqb ty t) by (unfold sameTime; now rewrite Ey).
  cbn [filter]. rewrite IH. cbn [filter]. rewrite Sx, Sy.
  destruct (Z.eqb_spec tx t), (Z.eqb_spec ty t); try reflexivity. lia.
Qed.

Lemma sortChats_stable (t : Z) (chats : list value) :
  Forall dated chats ->
  filter (sameTime t) (sortChats chats) = filter (sameTime t) chats.
Proof.
  intros H. induction H as [|x l Hx Hl IH]; [reflexivity|].
  cbn [sortChats fold_right]. fold (sortChats l).
  rewrite (insertChat_stable t Hx (sortChats_Forall Hl)).
  cbn [filter]. now rewrite IH.
Qed.

(** Any stable sort agrees with [sortChats]: a list that is newest first and
    keeps, time by time, the records in the order of [chats] is the list
    [sortChats] gives. *)
Lemma filter_head_In (g : value -> bool) (l rest : list value) (x : value) :
  filter g l = x :: rest -> In x l /\ g x = true.
Proof.
  intros E. apply filter_In. rewrite E. now left.
Qed.

Lemma sorted_head_newest (y : value) (l : list value) (x : value) ty tx :
  StronglySorted notOlder (y :: l) ->
  sortTime y = Some ty -> sortTime x = Some tx ->
  In x (y :: l) -> (tx <= ty)%Z.
Proof.
  intros S Hy Hx [->|Hin].
  - rewrite Hy in Hx. inversion Hx. lia.
  - inversion S as [|? ? _ F]; subst.
    rewrite Forall_forall in F. destruct (F x Hin) as (a & b & Ha & Hb & L).
    rewrite Hy in Ha. rewrite Hx in Hb. inversion Ha; inversion Hb; subst.
    exact L.
Qed.

Lemma sameTime_own (x : value) (tx : Z) :
  sortTime x = Some tx -> sameTime tx x = true.
Proof. intros E. unfold sameTime. rewrite E. apply Z.eqb_refl. Qed.

Lemma sameTime_time (x : value) (t tx : Z) :
  sortTime x = Some tx -> sameTime t x = true -> tx = t.
Proof.
  intros E. unfold sameTime. rewrite E. apply Z.eqb_eq.
Qed.

Lemma stable_sorted_unique (l1 : list value) :
  forall l2 : list value,
    Forall dated l1 -> Forall dated l2 ->
    StronglySorted notOlder l1 -> StronglySorted notOlder l2 ->
    (forall t, filter (sameTime t) l1 = filter (sameTime t) l2) ->
    l1 = l2.
Proof.
  induction l1 as [|x l1 IH]; intros l2 D1 D2 S1 S2 E.
  - destruct l2 as [|y l2]; [reflexivity|].
    inversion D2 as [|? ? Dy _]; subst. unfold dated in Dy.
    destruct (sortTime y) as [ty|] eqn:Ey; [|congruence].
    specialize (E ty). simpl in E. rewrite (sameTime_own y Ey) in E.
    discriminate.
  - inversion D1 as [|? ? Dx D1']; subst. unfold dated in Dx.
    destruct (sortTime x) as [tx|] eqn:Ex; [|congruence].
    assert (Etx : filter (sameTime tx) l2 = x :: filter (sameTime tx) l1).
    { rewrite <- (E tx). simpl. now rewrite (sameTime_own x Ex). }
    destruct l2 as [|y l2]; [discriminate|].
    inversion D2 as [|? ? Dy D2']; subst. unfold dated in Dy.
    destruct (sortTime y) as [ty|] eqn:Ey; [|congruence].
    assert (Ety : filter (sameTime ty) (x :: l1) = y :: filter (sameTime ty) l2).
    { rewrite (E ty). simpl. now rewrite (sameTime_own y Ey). }
    destruct (filter_head_In _ _ Etx) as [Inx _].
    destruct (filter_head_In _ _ Ety) as [Iny _].
    pose proof (sorted_head_newest S2 Ey Ex Inx) as L1.
    pose proof (sorted_head_newest S1 Ex Ey Iny) as L2.
    assert (T : tx = ty) by lia. subst ty.
    simpl in Etx. rewrite (sameTime_own y Ey) in Etx.
    inversion Etx as [[Hxy Hrest]]. subst y. f_equal.
    inversion S1; inversion S2; subst.
    apply IH; try assumption.
    intros t. specialize (E t). simpl in E.
    destruct (sameTime t x) eqn:Sx; [now inversion E|exact E].
Qed.

Lemma sortChats_is_the_stable_sort (chats sorted : list value) :
  Forall dated chats ->
  Permutation chats sorted ->
  StronglySorted notOlder sorted ->
  (forall t, filter (sameTime t) sorted = filter (sameTime t) chats) ->
  sorted = sortChats chats.
Proof.
  intros D P S E. apply stable_sorted_unique.
  - eapply Permutation_Forall; eauto.
  - now apply sortChats_Forall.
  - exact S.
  - now apply sortChats_sorted.
  - intros t. rewrite E. symmetry. now apply sortChats_stable.
Qed.

(** Where the key of the code and the stated key part ways: only on a
    time stamp that is set but falsy. *)
Lemma sortKey_statedKey (chat : value) :
  (isUndefined (prop "updatedAt" chat) || truthy (prop "updatedAt" chat)) = true ->
  (isUndefined (prop "createdAt" chat) || truthy (prop "createdAt" chat)) = true ->
  sortKey chat = statedKey chat.
Proof.
  unfold sortKey, statedKey.
  destruct (prop "updatedAt" chat) as [| |b|n|s|l|f];
    destruct (prop "createdAt" chat) as [| |b'|n'|s'|l'|f']; simpl;
    intros H1 H2; try discriminate; try reflexivity;
    try rewrite H1; try rewrite H2; reflexivity.
Qed.

(** C10, as the code has it: the list handed to the selection UI is the
    retrieved list reordered by the key [updatedAt || createdAt || 0] --
    [updatedAt] unless it is absent or falsy (0, empty, null), then
    [createdAt] unless that is absent or falsy, then the epoch.  When every
    key reads as a valid date the result is a permutation of the retrieved
    records, newest first, records of one time in their retrieved order.
    The key is [updatedAt], else [createdAt], else the epoch, on every record
    whose time stamps are each absent or truthy. *)
Theorem sortChats_newest_first (chats : list value) :
  Forall dated chats ->
  Permutation chats (sortChats chats)
  /\ newestFirst sortTime (sortChats chats)
  /\ (forall t,
        filter (sameTime t) (sortChats chats) = filter (sameTime t) chats)
  /\ (forall chat,
        (prop "updatedAt" chat = Undefined ->
         prop "createdAt" chat = Undefined -> sortKey chat = Num 0)
        /\ (prop "updatedAt" chat = Undefined ->
            truthy (prop "createdAt" chat) = true ->
            sortKey chat = prop "createdAt" chat)
        /\ (truthy (prop "updatedAt" chat) = true ->
            sortKey chat = prop "updatedAt" chat)
        /\ ((isUndefined (prop "updatedAt" chat)
             || truthy (prop "updatedAt" chat)) = true ->
            (isUndefined (prop "createdAt" chat)
             || truthy (prop "createdAt" chat)) = true ->
            sortKey chat = statedKey chat)).
Proof.
  intros H. split; [apply sortChats_perm|]. split; [|split].
  - now apply sortChats_sorted.
  - intros t. now apply sortChats_stable.
  - intros chat. split; [|split; [|split]].
    + unfold sortKey. intros -> ->. reflexivity.
    + unfold sortKey. intros -> ->. reflexivity.
    + unfold sortKey. intros ->. reflexivity.
    + apply sortKey_statedKey.
Qed.

End Ordering.

(** Records for the examples. *)
Definition stamped (name : string) (updatedAt : Z) : value :=
  Obj [("chatTitle", Str name); ("messages", Arr []);
       ("updatedAt", Num updatedAt)].

Definition createdOnly (name : string) (createdAt : Z) : value :=
  Obj [("chatTitle", Str name); ("messages", Arr []);
       ("createdAt", Num createdAt)].

Definition undated (name : string) : value :=
  Obj [("chatTitle", Str name); ("messages", Arr [])].

(** Updated at the epoch itself, created later. *)
Definition epochUpdated : value :=
  Obj [("chatTitle", Str "epoch"); ("messages", Arr []);
       ("updatedAt", Num 0); ("createdAt", Num 1000)].

Definition noDates : string -> option Z := fun _ => None.

Lemma sortChats_newest_first_witness :
  sortChats noDates
    [createdOnly "b" 200; stamped "a" 300; undated "c"; stamped "d" 300]
  = [stamped "a" 300; stamped "d" 300; createdOnly "b" 200; undated "c"]
  /\ newestFirst (sortTime noDates)
       (sortChats noDates
          [createdOnly "b" 200; stamped "a" 300; undated "c"; stamped "d" 300]).
Proof.
  assert (D : Forall (dated noDates)
                [createdOnly "b" 200; stamped "a" 300; undated "c";
                 stamped "d" 300])
    by (repeat constructor; discriminate).
  destruct (@sortChats_newest_first noDates _ D) as (_ & S & _).
  split; [reflexivity|exact S].
Defined.

(** C10, as stated, fails: a record updated at the epoch and created later is
    ordered by its creation time, ahead of a record updated after the
    epoch. *)
Lemma sortChats_not_stated_order :
  sortChats noDates [stamped "later" 500; epochUpdated]
  = [epochUpdated; stamped "later" 500]
  /\ statedTime noDates epochUpdated = Some 0%Z
  /\ statedTime noDates (stamped "later" 500) = Some 500%Z
  /\ ~ newestFirst (statedTime noDates)
         (sortChats noDates [stamped "later" 500; epochUpdated]).
Proof.
  split; [reflexivity|]. split; [reflexivity|]. split; [reflexivity|].
  intros H. change (sortChats noDates [stamped "later" 500; epochUpdated])
    with [epochUpdated; stamped "later" 500] in H.
  inversion H as [|a l _ F]; subst. inversion F as [|b l' R _]; subst.
  destruct R as (ta & tb & Ha & Hb & Hle).
  vm_compute in Ha, Hb. inversion Ha; inversion Hb; subst. lia.
Qed.

(** ** The normalizer *)

Lemma strictEqStr_false (v : value) (lit : string) :
  v <> Str lit -> strictEqStr v lit = false.
Proof.
  destruct v; simpl; try reflexivity. intros H.
  destruct (String.eqb_spec s lit); [subst; congruence|reflexivity].
Qed.

Lemma filter_app_drop (parts before after : list value) (part : value) :
  isTextPart part = false ->
  parts = before ++ part :: after ->
  filter isTextPart parts = filter isTextPart (before ++ after).
Proof.
  intros H ->. rewrite !filter_app. simpl. now rewrite H.
Qed.

(** A part tagged ["text"] carrying the text [t]. *)
Definition bearsText (part : value) (t : string) : Prop :=
  isTextPart part = true /\ prop "text" part = Str t.

Lemma filter_textParts (parts : list value) (texts : list string) :
  Forall2 bearsText parts texts ->
  filter isTextPart parts = parts /\ map (prop "text") parts = map Str texts.
Proof.
  induction 1 as [|part t parts texts [Hp Ht] _ [IHf IHm]]; [split; reflexivity|].
  simpl. rewrite Hp, Ht, IHf, IHm. split; reflexivity.
Qed.

Lemma join_strings (sep : string) (texts : list string) :
  join sep (map Str texts) = joinWith sep texts.
Proof.
  unfold join. f_equal. rewrite map_map. simpl.
  induction texts as [|t l IH]; [reflexivity|]. simpl. now rewrite IH.
Qed.

Lemma textPart_bearsText (t : string) : t <> "" -> bearsText (textPart t) t.
Proof.
  intros H. split; [|reflexivity]. unfold isTextPart. simpl.
  destruct (String.eqb_spec t ""); [contradiction|reflexivity].
Qed.

(** A message of a role other than user and assistant adds nothing. *)
Lemma formatMessage_other_role (formattedText : string) (msg : value) :
  msg <> Undefined -> msg <> Null ->
  prop "role" msg <> Str "user" ->
  prop "role" msg <> Str "assistant" ->
  formatMessage formattedText msg = Normal formattedText.
Proof.
  intros H1 H2 Hu Ha. unfold formatMessage, roleLabel.
  rewrite (strictEqStr_false Hu), (strictEqStr_false Ha).
  destruct msg; try reflexivity; congruence.
Qed.

Lemma formatMessages_other_role (before after : list value) (msg : value) :
  msg <> Undefined -> msg <> Null ->
  prop "role" msg <> Str "user" ->
  prop "role" msg <> Str "assistant" ->
  forall formattedText,
    formatMessages formattedText (before ++ msg :: after)
    = formatMessages formattedText (before ++ after).
Proof.
  intros H1 H2 Hu Ha.
  induction before as [|m l IH]; intros text; simpl.
  - now rewrite formatMessage_other_role.
  - destruct (formatMessage text m); [apply IH|reflexivity].
Qed.

(** C5: [contentText] takes a content of three shapes -- a string gives that
    string; a sequence of parts gives the texts of its text-bearing parts
    (tagged ["text"], text not empty), in order, joined by line feeds, every
    other part dropped; an object with a [text] string gives that text -- and
    gives the empty text for anything else.  A message whose role is neither
    ["user"] nor ["assistant"] adds nothing to the formatted output. *)
Theorem normalizer_shapes :
  (forall s, contentText (Str s) = Str s)
  /\ (forall parts texts,
        Forall2 bearsText parts texts ->
        contentText (Arr parts) = Str (joinWith LF texts))
  /\ (forall before part after,
        isTextPart part = false ->
        contentText (Arr (before ++ part :: after))
        = contentText (Arr (before ++ after)))
  /\ (forall fields t,
        lookup "text" fields = Str t -> contentText (Obj fields) = Str t)
  /\ (forall content,
        recognizedShape content = false -> contentText content = Str "")
  /\ (forall before msg after formattedText,
        msg <> Undefined -> msg <> Null ->
        prop "role" msg <> Str "user" ->
        prop "role" msg <> Str "assistant" ->
        formatMessages formattedText (before ++ msg :: after)
        = formatMessages formattedText (before ++ after))
  /\ contentText (Str "hi") = Str "hi"
  /\ contentText (Arr [textPart "a"; imagePart]) = Str "a"
  /\ formatChat
       (Obj [("messages",
               Arr [Obj [("role", Str "system"); ("content", Str "Be brief")];
                    Obj [("role", Str "user"); ("content", Str "hi")]])])
     = Normal ("User: hi" ++ LF ++ LF)%string.
Proof.
  split; [|split; [|split; [|split; [|split; [|split]]]]].
  - intros s. unfold contentText. simpl.
    destruct (String.eqb_spec s ""); [now subst|reflexivity].
  - intros parts texts H. unfold contentText. simpl.
    destruct (filter_textParts H) as [F M]. now rewrite F, M, join_strings.
  - intros before part after H. unfold contentText. simpl.
    now rewrite (@filter_app_drop _ before after part H eq_refl).
  - intros fields t H. unfold contentText. simpl. rewrite H. simpl.
    destruct (String.eqb_spec t ""); [now subst|reflexivity].
  - intros content H. destruct content as [| |b|n|s|items|fields];
      try discriminate; unfold contentText; simpl.
    + reflexivity.
    + reflexivity.
    + now destruct b.
    + now destruct (Z.eqb n 0).
    + simpl in H. now rewrite H.
  - intros before msg after text. intros. now apply formatMessages_other_role.
  - repeat split; reflexivity.
Qed.

Lemma normalizer_shapes_witness :
  contentText (Arr [textPart "a"; textPart "b"])
  = Str (joinWith LF ["a"; "b"])
  /\ formatMessages ""
       ([] ++ Obj [("role", Str "system"); ("content", Str "x")] :: [])
     = formatMessages "" ([] ++ []).
Proof.
  destruct normalizer_shapes as (_ & T & _ & _ & _ & R & _).
  split.
  - apply T. repeat constructor.
  - apply R; discriminate.
Defined.

End Selection.

(* ------------------------------------------------------------------ *)
(** * Input writer *)
(* ------------------------------------------------------------------ *)

Module Writer.
Import Js.
Local Open Scope list_scope.

(** The signals [insertTextIntoInput] dispatches. *)
Inductive eventType : Type :=
| CompositionStart | KeyDown | KeyPress | KeyUp | Input | CompositionEnd
| Change.

(** Which DOM calls of the [try] block raise on the element at hand: a
    dispatch (by event type), the prototype's value setter (it does on an
    element that is no textarea), the plain assignment, the selection
    setters (they do on inputs without a selection). *)
Record faults : Type := mkFaults {
  dispatchRaises : eventType -> bool;
  nativeSetterRaises : bool;
  assignRaises : bool;
  selectionRaises : bool
}.

Section Text.

(** Code units; the writer never looks inside one. *)
Variable char : Type.
Variable char_eq_dec : forall a b : char, {a = b} + {a <> b}.

Definition text := list char.

(** The editable element: its value, its selection, and the signals it has
    been sent, each with the value it showed at that moment. *)
Record textarea : Type := mkTextarea {
  value : text;
  selectionStart : nat;
  selectionEnd : nat;
  focused : bool;
  dispatched : list (eventType * text)
}.

(** [s.substring(start, end)]: both ends clamped to the length, swapped
    when out of order. *)
Definition substring (start finish : nat) (s : text) : text :=
  let a := Nat.min start (List.length s) in
  let b := Nat.min finish (List.length s) in
  firstn (Nat.max a b - Nat.min a b) (skipn (Nat.min a b) s).

(** [s.substring(start)]. *)
Definition substringFrom (start : nat) (s : text) : text :=
  skipn (Nat.min start (List.length s)) s.

(** *** A state-and-exception monad over the element *)

Definition M (A : Type) : Type := textarea -> completion A * textarea.

Definition ret {A : Type} (a : A) : M A := fun el => (Normal a, el).

Definition raise {A : Type} (e : error) : M A := fun el => (Throw e, el).

Definition bind {A B : Type} (c : M A) (k : A -> M B) : M B :=
  fun el => match c el with
            | (Normal a, el') => k a el'
            | (Throw e, el') => (Throw e, el')
            end.

Definition tryCatch {A : Type} (body : M A) (handler : error -> M A) : M A :=
  fun el => match body el with
            | (Normal a, el') => (Normal a, el')
            | (Throw e, el') => handler e el'
            end.

Definition get {A : Type} (field : textarea -> A) : M A :=
  fun el => (Normal (field el), el).

Definition modify (g : textarea -> textarea) : M unit :=
  fun el => (Normal tt, g el).

Notation "x <- c ;; k" := (bind c (fun x => k))
  (at level 61, c at next level, right associativity).
Notation "c ;; k" := (bind c (fun _ => k))
  (at level 61, right associativity).

(** *** The element's operations *)

Variable f : faults.

Definition setFocused (el : textarea) : textarea :=
  mkTextarea (value el) (selectionStart el) (selectionEnd el) true
    (dispatched el).

(** The element notes a signal, with the value it shows. *)
Definition logEvent (ty : eventType) (el : textarea) : textarea :=
  mkTextarea (value el) (selectionStart el) (selectionEnd el) (focused el)
    (dispatched el ++ [(ty, value el)]).

(** [textarea.focus()]. *)
Definition focus : M unit := modify setFocused.

(** [el.dispatchEvent(new Event(ty, { bubbles: true }))]. *)
Definition dispatchEvent (ty : eventType) : M unit :=
  if dispatchRaises f ty then raise (Error "dispatchEvent")
  else modify (logEvent ty).

(** Setting the value: on a change the cursor moves to the end. *)
Definition setValue (v : text) (el : textarea) : textarea :=
  if list_eq_dec char_eq_dec v (value el)
  then mkTextarea v (selectionStart el) (selectionEnd el) (focused el)
         (dispatched el)
  else mkTextarea v (List.length v) (List.length v) (focused el) (dispatched el).

(** The value setter of [HTMLTextAreaElement.prototype], line 61-62. *)
Definition nativeInputValueSetter (v : text) : M unit :=
  if nativeSetterRaises f then raise (TypeError "Illegal invocation")
  else modify (setValue v).

(** [textarea.value = v], line 65. *)
Definition assignValue (v : text) : M unit :=
  if assignRaises f then raise (TypeError "value") else modify (setValue v).

(** Set the selection range: both ends clamped to the length, an end at or
    before the start collapses the selection onto the end. *)
Definition setSelectionRange (start finish : nat) (el : textarea) : textarea :=
  let a := Nat.min start (List.length (value el)) in
  let b := Nat.min finish (List.length (value el)) in
  mkTextarea (value el) (if Nat.leb b a then b else a) b (focused el)
    (dispatched el).

(** The selection start moves to [n]; an end before [n] moves along. *)
Definition selectFrom (n : nat) (el : textarea) : textarea :=
  setSelectionRange n (Nat.max (selectionEnd el) n) el.

(** The selection end moves to [n]. *)
Definition selectTo (n : nat) (el : textarea) : textarea :=
  setSelectionRange (selectionStart el) n el.

(** [textarea.selectionStart = n]. *)
Definition setSelectionStart (n : nat) : M unit :=
  if selectionRaises f then raise (DOMException "InvalidStateError")
  else modify (selectFrom n).

(** [textarea.selectionEnd = n]. *)
Definition setSelectionEnd (n : nat) : M unit :=
  if selectionRaises f then raise (DOMException "InvalidStateError")
  else modify (selectTo n).

(** Lines 47-84.  Lines 50-55 stand before the [try]; on an element with a
    value and a selection they raise nothing. *)
Definition insertTextIntoInput (textToInsert : text) : M bool :=
  start <- get selectionStart ;;
  finish <- get selectionEnd ;;
  currentValue <- get value ;;
  let newValue :=
    substring 0 start currentValue ++ textToInsert
    ++ substringFrom finish currentValue in
  focus ;;
  tryCatch
    (dispatchEvent CompositionStart ;;
     tryCatch (nativeInputValueSetter newValue)
       (fun _ => assignValue newValue) ;;
     dispatchEvent KeyDown ;;
     dispatchEvent KeyPress ;;
     dispatchEvent KeyUp ;;
     dispatchEvent Input ;;
     dispatchEvent CompositionEnd ;;
     dispatchEvent Change ;;
     setSelectionStart (start + List.length textToInsert) ;;
     now <- get selectionStart ;;
     setSelectionEnd now ;;
     ret true)
    (fun _ => ret false).

(** Some call of the [try] block raises and is not recovered from. *)
Definition raises : bool :=
  dispatchRaises f CompositionStart
  || (nativeSetterRaises f && assignRaises f)
  || dispatchRaises f KeyDown || dispatchRaises f KeyPress
  || dispatchRaises f KeyUp || dispatchRaises f Input
  || dispatchRaises f CompositionEnd || dispatchRaises f Change
  || selectionRaises f.

End Text.

Definition noFaults : faults := mkFaults (fun _ => false) false false false.

(** An element that is no textarea: the prototype's setter refuses it. *)
Definition foreignElement : faults := mkFaults (fun _ => false) true false false.

(** An input without a selection. *)
Definition noSelection : faults := mkFaults (fun _ => false) false false true.

(** ** What a call of [insertTextIntoInput] comes to *)

Section Facts.

Variable char : Type.
Variable char_eq_dec : forall a b : char, {a = b} + {a <> b}.

Lemma substring_prefix (n : nat) (s : text char) :
  n <= List.length s -> substring 0 n s = firstn n s.
Proof.
  intros H. unfold substring. simpl.
  rewrite (Nat.min_l n (List.length s) H), Nat.sub_0_r. reflexivity.
Qed.

Lemma substringFrom_suffix (n : nat) (s : text char) :
  n <= List.length s -> substringFrom n s = skipn n s.
Proof. intros H. unfold substringFrom. now rewrite Nat.min_l. Qed.

Lemma splice_length (s e : nat) (v t : text char) :
  s <= e -> e <= List.length v ->
  List.length (firstn s v ++ t ++ skipn e v)
  = s + List.length t + (List.length v - e).
Proof.
  intros Hs He. rewrite !length_app, length_firstn, length_skipn. lia.
Qed.

(** The two selection assignments of lines 75-76 leave the cursor at [n]. *)
Lemma cursor_after (el : textarea char) (n : nat) :
  n <= List.length (value el) ->
  selectTo (selectionStart (selectFrom n el)) (selectFrom n el)
  = mkTextarea (value el) n n (focused el) (dispatched el).
Proof.
  intros H. unfold selectTo, selectFrom, setSelectionRange. simpl.
  set (len := List.length (value el)) in *.
  set (b := Nat.min (Nat.max (selectionEnd el) n) len).
  assert (Hb : n <= b) by (unfold b; lia).
  rewrite (Nat.min_l n len H).
  assert (E : (if Nat.leb b n then b else n) = n).
  { destruct (Nat.leb_spec b n); lia. }
  rewrite E, (Nat.min_l n len H), Nat.leb_refl. reflexivity.
Qed.

Lemma setValue_value (v : text char) (el : textarea char) :
  value (setValue char_eq_dec v el) = v
  /\ focused (setValue char_eq_dec v el) = focused el
  /\ dispatched (setValue char_eq_dec v el) = dispatched el.
Proof. unfold setValue. destruct (list_eq_dec _ _ _); auto. Qed.

(** The call never throws: it returns true when no call of the [try] block
    raises, false as soon as one does. *)
Lemma insertTextIntoInput_returns (f : faults) (t : text char)
  (el : textarea char) :
  fst (insertTextIntoInput char_eq_dec f t el) = Normal (negb (raises f)).
Proof.
  destruct f as [d n a sr].
  unfold insertTextIntoInput, raises, bind, tryCatch, get, ret, focus, modify,
    dispatchEvent, nativeInputValueSetter, assignValue, setSelectionStart,
    setSelectionEnd, raise.
  cbn [dispatchRaises nativeSetterRaises assignRaises selectionRaises].
  destruct (d CompositionStart); [reflexivity|].
  destruct n, a; cbn [modify raise orb andb]; try reflexivity;
    (destruct (d KeyDown); [reflexivity|]);
    (destruct (d KeyPress); [reflexivity|]);
    (destruct (d KeyUp); [reflexivity|]);
    (destruct (d Input); [reflexivity|]);
    (destruct (d CompositionEnd); [reflexivity|]);
    (destruct (d Change); [reflexivity|]);
    destruct sr; reflexivity.
Qed.

End Facts.

(** C4: on an element with value [v] and selection [s..e]
    ([s <= e <= length v]), [insertTextIntoInput] never throws: it returns
    false as soon as a call of its [try] block raises and true otherwise.
    When none raises, the value is [v[0..s) + t + v[e..)], the element has
    been sent composition-start (still showing [v]) and then key-down,
    key-press, key-up, input, composition-end and change, in that order, all
    showing the new value, and the selection is collapsed at
    [s + length t]. *)
Theorem insertTextIntoInput_spec (char : Type)
  (char_eq_dec : forall a b : char, {a = b} + {a <> b})
  (f : faults) (t : text char) (el : textarea char) :
  selectionStart el <= selectionEnd el ->
  selectionEnd el <= List.length (value el) ->
  let v := value el in
  let newValue := firstn (selectionStart el) v ++ t ++ skipn (selectionEnd el) v in
  let cursor := selectionStart el + List.length t in
  fst (insertTextIntoInput char_eq_dec f t el) = Normal (negb (raises f))
  /\ (raises f = false ->
      insertTextIntoInput char_eq_dec f t el
      = (Normal true,
         mkTextarea newValue cursor cursor true
           (dispatched el
            ++ [(CompositionStart, v); (KeyDown, newValue);
                (KeyPress, newValue); (KeyUp, newValue); (Input, newValue);
                (CompositionEnd, newValue); (Change, newValue)]))).
Proof.
  intros Hse Hel v newValue cursor.
  split; [apply insertTextIntoInput_returns|].
  intros R. destruct f as [d n a sr]. unfold raises in R.
  cbn [dispatchRaises nativeSetterRaises assignRaises selectionRaises] in R.
  repeat (apply orb_false_iff in R; destruct R as [R ?]).
  subst sr.
  assert (L : cursor <= List.length newValue).
  { unfold newValue, cursor, v. rewrite splice_length by assumption. lia. }
  set (afterValue :=
         setValue char_eq_dec newValue
           (logEvent CompositionStart (setFocused el))).
  set (afterSignals :=
         logEvent Change
           (logEvent CompositionEnd
              (logEvent Input
                 (logEvent KeyUp (logEvent KeyPress (logEvent KeyDown afterValue)))))).
  assert (Run : insertTextIntoInput char_eq_dec (mkFaults d n a false) t el
                = (Normal true,
                   selectTo (selectionStart (selectFrom cursor afterSignals))
                     (selectFrom cursor afterSignals))).
  { unfold insertTextIntoInput, dispatchEvent, nativeInputValueSetter,
      assignValue, setSelectionStart, setSelectionEnd.
    cbn [dispatchRaises nativeSetterRaises assignRaises selectionRaises].
    repeat match goal with
           | E : d _ = false |- _ => rewrite E; clear E
           end.
    cbv beta iota delta [bind get].
    rewrite (@substring_prefix char (selectionStart el) (value el)) by lia.
    rewrite (@substringFrom_suffix char (selectionEnd el) (value el))
      by assumption.
    fold v. fold newValue.
    destruct n; [simpl in *; subst a|]; reflexivity. }
  rewrite Run. f_equal.
  destruct (setValue_value char_eq_dec newValue
              (logEvent CompositionStart (setFocused el))) as (V & F & D).
  fold afterValue in V, F, D.
  rewrite cursor_after by (simpl; rewrite V; exact L).
  simpl. rewrite V, F, D. simpl. rewrite <- !app_assoc. reflexivity.
Qed.

Lemma insertTextIntoInput_spec_witness :
  insertTextIntoInput Ascii.ascii_dec noFaults
    (list_ascii_of_string "XY")
    (mkTextarea (list_ascii_of_string "abcdef") 2 4 false [])
  = (Normal true,
     mkTextarea (list_ascii_of_string "abXYef") 4 4 true
       [(CompositionStart, list_ascii_of_string "abcdef");
        (KeyDown, list_ascii_of_string "abXYef");
        (KeyPress, list_ascii_of_string "abXYef");
        (KeyUp, list_ascii_of_string "abXYef");
        (Input, list_ascii_of_string "abXYef");
        (CompositionEnd, list_ascii_of_string "abXYef");
        (Change, list_ascii_of_string "abXYef")]).
Proof.
  refine (proj2 (@insertTextIntoInput_spec ascii Ascii.ascii_dec noFaults
            (list_ascii_of_string "XY")
            (mkTextarea (list_ascii_of_string "abcdef") 2 4 false [])
            _ _) eq_refl); simpl; repeat constructor.
Defined.

End Writer.

(* ------------------------------------------------------------------ *)
(** * More on the controller, the watcher and the start-up *)
(* ------------------------------------------------------------------ *)

Module Lifecycle.
Import Dom Script.
Local Open Scope string_scope.
Local Open Scope list_scope.
Local Open Scope Z_scope.

(** ** Definitions *)

(** The number of controls a reconciliation leaves: one when the anchor
    lookup of lines 112-124 succeeds on the document without the old
    control, none otherwise. *)
Definition controlsCalledFor (d : forest) : nat :=
  match locateAnchor (removeExisting d) with
  | Some _ => 1%nat
  | None => 0%nat
  end.

(** The callbacks that end in [addReferenceButton] or, without an action
    bar, in [removeReferenceButton]. *)
Definition reconciles (cb : callback) : bool :=
  match cb with
  | ObserverAdd | NavSettle | InitInner => true
  | ObserverRemoveCheck | InitOuter => false
  end.

(** A mutation record the observer's scan passes over. *)
Definition quiet (m : mutationRecord) : bool :=
  match mutType m with
  | ChildList =>
      negb (existsb mentionsActionBar (addedNodes m)
            || existsb mentionsActionBar (removedNodes m))
  | _ => true
  end.

(** Every queued timer has a handle the platform has already given out. *)
Definition wellQueued (s : state) : Prop :=
  Forall (fun t => (timerId t < nextTimerId s)%nat) (timers s).

(** The two callbacks the watcher schedules. *)
Definition isWatcher (cb : callback) : bool :=
  match cb with
  | ObserverAdd | ObserverRemoveCheck => true
  | _ => false
  end.

Definition watcherTimers (s : state) : list timer :=
  filter (fun t => isWatcher (action t)) (timers s).

(** The queue as the script keeps it: handles are fresh and distinct, and a
    pending watcher timer is the one [window.convoRefDebounce] names. *)
Definition queueInv (s : state) : Prop :=
  wellQueued s
  /\ NoDup (map timerId (timers s))
  /\ Forall (fun t => isWatcher (action t) = true ->
                      convoRefDebounce s = Some (timerId t)) (timers s).

(** The state after the two start-up timers of lines 528-539 have fired, at
    [t1] and [t2]. *)
Definition started (d : forest) (now t1 t2 : Z) : state :=
  step (TimerFires 2 t2) (step (TimerFires 1 t1) (init d now)).

(** ** The control comes and goes as a whole *)

Lemma document_removeReferenceButton (s : state) :
  document (removeReferenceButton s) = removeExisting (document s).
Proof.
  unfold removeReferenceButton, removeExisting.
  now destruct (getElementById controlId (document s)).
Qed.

Lemma removeReferenceButton_none (s : state) :
  controls (document s) = 0%nat -> removeReferenceButton s = s.
Proof.
  intros Z. unfold removeReferenceButton, getElementById.
  apply querySelector_None_iff in Z.
  change (querySelector (has_id controlId) (document s) = None) in Z.
  now rewrite Z.
Qed.

(** X1: [removeReferenceButton] on a document with at most one control
    leaves none, drops [buttonAdded] when it removed one, and a second call
    changes nothing. *)
Theorem removeReferenceButton_clears (s : state) :
  (controls (document s) <= 1)%nat ->
  controls (document (removeReferenceButton s)) = 0%nat
  /\ (controls (document s) = 1%nat ->
      buttonAdded (removeReferenceButton s) = false)
  /\ removeReferenceButton (removeReferenceButton s) = removeReferenceButton s.
Proof.
  intros H.
  assert (Z : controls (document (removeReferenceButton s)) = 0%nat).
  { rewrite document_removeReferenceButton. now apply controls_removeExisting. }
  split; [exact Z|]. split; [|now apply removeReferenceButton_none].
  intros One. unfold removeReferenceButton, getElementById.
  destruct (querySelector (has_id controlId) (document s)) eqn:Hq;
    [reflexivity|].
  apply querySelector_None_iff in Hq.
  assert (Z0 : controls (document s) = 0%nat) by exact Hq. congruence.
Qed.

Lemma removeReferenceButton_clears_witness :
  controls (document (removeReferenceButton
                        (fst (addReferenceButton (init chatPage 0))))) = 0%nat.
Proof.
  apply removeReferenceButton_clears. vm_compute. repeat constructor.
Defined.

Lemma removeExisting_after_add (s : state) :
  (controls (document s) <= 1)%nat ->
  removeExisting (document (fst (addReferenceButton s)))
  = removeExisting (document s).
Proof.
  intros H. rewrite addReferenceButton_eq. cbv zeta.
  pose proof (controls_removeExisting _ H) as Z.
  destruct (locateAnchor (removeExisting (document s))) as [p|] eqn:Hp;
    cbn [fst document set_buttonAdded set_document].
  - destruct (locateAnchor_sound _ Hp) as (a & cs & Hg & _).
    unfold removeExisting at 1.
    rewrite (@getElementById_after_add _ p a cs Z Hg).
    now apply remove_at_prepend_at with (a := a) (cs := cs).
  - now apply removeExisting_none.
Qed.

(** X2: the only thing [addReferenceButton] changes in a page is the
    control: removing the control again, by [removeReferenceButton], gives
    the page as it was without its old control, every host node in place;
    the timer queue and the navigation clock are not touched. *)
Theorem addReferenceButton_confined (s : state) :
  (controls (document s) <= 1)%nat ->
  document (removeReferenceButton (fst (addReferenceButton s)))
  = removeExisting (document s)
  /\ (controls (document s) = 0%nat ->
      document (removeReferenceButton (fst (addReferenceButton s)))
      = document s)
  /\ timers (fst (addReferenceButton s)) = timers s
  /\ lastNavTime (fst (addReferenceButton s)) = lastNavTime s.
Proof.
  intros H.
  assert (E : document (removeReferenceButton (fst (addReferenceButton s)))
              = removeExisting (document s)).
  { rewrite document_removeReferenceButton.
    now apply removeExisting_after_add. }
  split; [exact E|]. split.
  - intros Z. rewrite E. now apply removeExisting_none.
  - rewrite addReferenceButton_eq. cbv zeta.
    destruct (locateAnchor (removeExisting (document s))); split; reflexivity.
Qed.

Lemma addReferenceButton_confined_witness :
  document (removeReferenceButton (fst (addReferenceButton (init chatPage 0))))
  = chatPage.
Proof.
  destruct (addReferenceButton_confined (init chatPage 0)) as (_ & R & _).
  - vm_compute. repeat constructor.
  - apply R. reflexivity.
Defined.

(** ** What a reconciling callback leaves *)

Lemma controls_after_add (s : state) :
  (controls (document s) <= 1)%nat ->
  controls (document (fst (addReferenceButton s)))
  = controlsCalledFor (document s).
Proof.
  intros H. unfold controlsCalledFor. rewrite addReferenceButton_eq. cbv zeta.
  pose proof (controls_removeExisting _ H) as Z.
  destruct (locateAnchor (removeExisting (document s))) as [p|] eqn:Hp;
    cbn [fst document set_buttonAdded set_document].
  - destruct (locateAnchor_sound _ Hp) as (a & cs & Hg & _).
    unfold controls in *.
    rewrite (count_prepend_at is_control refButtonContainer p _ Hg), Z.
    reflexivity.
  - exact Z.
Qed.

Lemma no_bar_no_anchor (d : forest) :
  findChatActionBar d = None -> controlsCalledFor d = 0%nat.
Proof.
  intros H. unfold controlsCalledFor, locateAnchor.
  assert (N : findChatActionBar (removeExisting d) = None).
  { unfold findChatActionBar in *. apply querySelector_None_iff in H.
    apply querySelector_None_iff.
    unfold removeExisting, getElementById.
    destruct (querySelector (has_id controlId) d) as [p|] eqn:Hq; [|exact H].
    destruct (querySelector_sound _ _ Hq) as (b & ds & Hg & _).
    pose proof (count_remove_at is_action_bar p d Hg). lia. }
  now rewrite N.
Qed.

(** X3: whichever trigger runs it -- the watcher's add check, the
    navigation's settle check, the first start-up check -- a reconciling
    callback started on a document with at most one control leaves exactly
    one control when the anchor lookup succeeds and none when it fails. *)
Theorem reconciling_callback_outcome (cb : callback) (now : Z) (s : state) :
  reconciles cb = true ->
  (controls (document s) <= 1)%nat ->
  controls (document (runCallback cb now s))
  = controlsCalledFor (document s).
Proof.
  intros R H. destruct cb; try discriminate; cbn [runCallback].
  - now apply controls_after_add.
  - unfold navSettle.
    destruct (findChatActionBar (document s)) eqn:Hb.
    + now apply controls_after_add.
    + rewrite (no_bar_no_anchor _ Hb), document_removeReferenceButton.
      now apply controls_removeExisting.
  - unfold initInner. pose proof (controls_after_add s H) as A.
    destruct (addReferenceButton s) as [s1 [|]]; cbn [fst] in A;
      [exact A|]. now rewrite document_handleNavigation.
Qed.

Lemma reconciling_callback_outcome_witness :
  controls (document (runCallback NavSettle 4000 (init chatPage 0))) = 1%nat
  /\ controls (document (runCallback NavSettle 4000 (init otherPage 0)))
     = 0%nat.
Proof.
  split.
  - rewrite (@reconciling_callback_outcome NavSettle 4000 (init chatPage 0)
               eq_refl); [reflexivity|vm_compute; repeat constructor].
  - rewrite (@reconciling_callback_outcome NavSettle 4000 (init otherPage 0)
               eq_refl); [reflexivity|vm_compute; repeat constructor].
Defined.

(** ** The watcher's scan *)

Lemma scanMutations_quiet (ms : list mutationRecord) :
  scanMutations ms = (false, false) <-> forallb quiet ms = true.
Proof.
  induction ms as [|m ms IH]; [now split|].
  cbn [scanMutations forallb]. unfold quiet at 1.
  destruct (mutType m); cbn [andb]; try exact IH.
  destruct (existsb mentionsActionBar (addedNodes m)),
    (existsb mentionsActionBar (removedNodes m)); cbn [orb negb andb];
    try exact IH; split; discriminate.
Qed.

Lemma nextTimerId_debounce cb now s :
  nextTimerId (debounce cb now s) = S (nextTimerId s).
Proof. unfold debounce. now destruct (convoRefDebounce s). Qed.

(** X4: the observer's callback leaves the state as it is -- nothing
    queued -- exactly when no child-list record of the batch adds or removes
    an element that is the action bar or holds one; records of other kinds,
    text nodes and the script's own control never count. *)
Theorem observerCallback_quiet (ms : list mutationRecord) (now : Z) (s : state) :
  observerCallback ms now s = s <-> forallb quiet ms = true.
Proof.
  rewrite <- scanMutations_quiet. unfold observerCallback.
  destruct (scanMutations ms) as [[|] [|]]; split; intros E;
    try discriminate; try reflexivity; exfalso;
    apply (f_equal nextTimerId) in E;
    rewrite ?nextTimerId_debounce in E; lia.
Qed.

(** A batch holding the script's own edit, an attribute change on the bar
    and a text node. *)
Lemma observerCallback_quiet_witness :
  observerCallback
    [mkMutation ChildList [refButtonContainer] [];
     mkMutation ChildList [] [refButtonContainer];
     mkMutation Attributes [toolbar] [];
     mkMutation ChildList [Text "typing"] []]
    4000 busyState
  = busyState.
Proof. apply observerCallback_quiet. reflexivity. Defined.

(** ** A toolbar replaced within one record *)

Lemma filter_fresh (n : nat) (l : list timer) :
  Forall (fun t => (timerId t < n)%nat) l ->
  filter (fun t => negb (Nat.eqb (timerId t) n)) l = l.
Proof.
  induction 1 as [|t l Ht _ IH]; [reflexivity|]. simpl.
  destruct (Nat.eqb_spec (timerId t) n); [lia|]. simpl. now rewrite IH.
Qed.

Lemma find_fresh (n : nat) (l : list timer) :
  Forall (fun t => (timerId t < n)%nat) l ->
  find (fun t => Nat.eqb (timerId t) n) l = None.
Proof.
  induction 1 as [|t l Ht _ IH]; [reflexivity|]. simpl.
  destruct (Nat.eqb_spec (timerId t) n); [lia|exact IH].
Qed.

Lemma find_app_fresh (n : nat) (l : list timer) (t : timer) :
  Forall (fun x => (timerId x < n)%nat) l -> timerId t = n ->
  find (fun x => Nat.eqb (timerId x) n) (l ++ [t]) = Some t.
Proof.
  intros F E. induction F as [|x l Hx _ IH]; simpl.
  - now rewrite E, Nat.eqb_refl.
  - destruct (Nat.eqb_spec (timerId x) n); [lia|exact IH].
Qed.

Lemma Forall_filter_timer (P : timer -> Prop) (g : timer -> bool) l :
  Forall P l -> Forall P (filter g l).
Proof.
  induction 1 as [|t l Ht _ IH]; simpl; [constructor|].
  destruct (g t); [now constructor|exact IH].
Qed.

Lemma wellQueued_clearTimeout h s :
  wellQueued s ->
  Forall (fun t => (timerId t < nextTimerId s)%nat) (timers (clearTimeout h s)).
Proof.
  intros W. destruct h; [|exact W]. simpl. now apply Forall_filter_timer.
Qed.

Lemma timers_replaced (ms : list mutationRecord) (now : Z) (s : state) :
  wellQueued s ->
  scanMutations ms = (true, true) ->
  timers (observerCallback ms now s)
  = timers (clearTimeout (convoRefDebounce s) s)
    ++ [mkTimer (S (nextTimerId s)) (now + 500) ObserverRemoveCheck]
  /\ convoRefDebounce (observerCallback ms now s) = Some (S (nextTimerId s))
  /\ document (observerCallback ms now s) = document s.
Proof.
  intros W Sc. unfold observerCallback. rewrite Sc.
  pose proof (wellQueued_clearTimeout (convoRefDebounce s) W) as W1.
  unfold debounce.
  destruct (convoRefDebounce s) as [h|]; cbn in *;
    rewrite filter_app; cbn; rewrite Nat.eqb_refl; cbn;
    rewrite app_nil_r, (filter_fresh W1); repeat split; reflexivity.
Qed.

(** X5: when one batch both adds and removes the action bar (the host
    swapping one toolbar for another), the add check the callback queues
    first is cleared at once and only the removal check stays pending; fired
    with a toolbar on the page it leaves the document alone, so this batch
    never brings the control back. *)
Theorem replaced_toolbar (ms : list mutationRecord) (now later : Z) (s : state) :
  wellQueued s ->
  scanMutations ms = (true, true) ->
  findChatActionBar (document s) <> None ->
  let s' := observerCallback ms now s in
  timers s'
  = timers (clearTimeout (convoRefDebounce s) s)
    ++ [mkTimer (S (nextTimerId s)) (now + 500) ObserverRemoveCheck]
  /\ document (step (TimerFires (S (nextTimerId s)) later) s') = document s
  /\ timers (step (TimerFires (S (nextTimerId s)) later) s')
     = timers (clearTimeout (convoRefDebounce s) s).
Proof.
  intros W Sc Bar s'.
  destruct (timers_replaced ms now W Sc) as (T & D & Doc). fold s' in T, D, Doc.
  split; [exact T|].
  pose proof (wellQueued_clearTimeout (convoRefDebounce s) W) as W1.
  assert (W2 : Forall (fun t => (timerId t < S (nextTimerId s))%nat)
                 (timers (clearTimeout (convoRefDebounce s) s))).
  { eapply Forall_impl; [|exact W1]. intros t Ht. simpl in Ht. lia. }
  cbn [step]. unfold pending. rewrite T.
  rewrite (@find_app_fresh (S (nextTimerId s)) _
             (mkTimer (S (nextTimerId s)) (now + 500) ObserverRemoveCheck)
             W2 eq_refl).
  cbn [action runCallback].
  unfold observerRemoveCheck.
  assert (Dc : document (clearTimeout (Some (S (nextTimerId s))) s') = document s)
    by (rewrite document_clearTimeout; exact Doc).
  rewrite Dc. destruct (findChatActionBar (document s)); [|congruence].
  split; [exact Dc|]. simpl. rewrite T, filter_app. simpl.
  rewrite Nat.eqb_refl. simpl. now rewrite app_nil_r, (filter_fresh W2).
Qed.

Lemma replaced_toolbar_witness :
  timers (observerCallback [mkMutation ChildList [toolbar] [toolbar]] 2700
            busyState)
  = [mkTimer 2 3000 InitInner; mkTimer 3 4000 NavSettle;
     mkTimer 6 3200 ObserverRemoveCheck].
Proof.
  assert (W : wellQueued busyState) by (vm_compute; repeat constructor).
  assert (B : findChatActionBar (document busyState) <> None)
    by (vm_compute; discriminate).
  destruct (@replaced_toolbar [mkMutation ChildList [toolbar] [toolbar]]
             2700 3200 busyState W eq_refl B) as (T & _).
  rewrite T. reflexivity.
Defined.

(** ** The watcher's debounce *)

(** Two states with the same timer queue, handle counter and debounce
    handle. *)
Definition sameQueue (s s' : state) : Prop :=
  timers s' = timers s
  /\ nextTimerId s' = nextTimerId s
  /\ convoRefDebounce s' = convoRefDebounce s.

Lemma queueInv_sameQueue s s' : sameQueue s s' -> queueInv s -> queueInv s'.
Proof.
  intros (T & N & D) (W & U & F). unfold queueInv, wellQueued.
  rewrite T, N, D. auto.
Qed.

Lemma sameQueue_addReferenceButton s : sameQueue s (fst (addReferenceButton s)).
Proof.
  rewrite addReferenceButton_eq. cbv zeta.
  destruct (locateAnchor (removeExisting (document s))); repeat split.
Qed.

Lemma sameQueue_removeReferenceButton s : sameQueue s (removeReferenceButton s).
Proof.
  unfold removeReferenceButton.
  destruct (getElementById controlId (document s)); repeat split.
Qed.

Lemma sameQueue_setupObserver s : sameQueue s (setupObserver s).
Proof. unfold setupObserver. destruct (observerActive s); repeat split. Qed.

Lemma NoDup_map_filter (g : timer -> bool) (l : list timer) :
  NoDup (map timerId l) -> NoDup (map timerId (filter g l)).
Proof.
  induction l as [|t l IH]; intros N; [constructor|].
  inversion N as [|? ? Hn N']; subst. simpl.
  destruct (g t); [|now apply IH]. simpl. constructor; [|now apply IH].
  intros I. apply Hn. apply in_map_iff in I. destruct I as (x & E & Hx).
  apply in_map_iff. exists x. split; [exact E|].
  apply filter_In in Hx. tauto.
Qed.

Lemma queueInv_clearTimeout h s : queueInv s -> queueInv (clearTimeout h s).
Proof.
  intros (W & U & F). destruct h as [i|]; [|now repeat split].
  unfold queueInv, wellQueued. simpl. repeat split.
  - now apply Forall_filter_timer.
  - now apply NoDup_map_filter.
  - now apply Forall_filter_timer.
Qed.

Lemma NoDup_fresh (n : nat) (l : list timer) :
  Forall (fun t => (timerId t < n)%nat) l ->
  NoDup (map timerId l) -> NoDup (map timerId l ++ [n]).
Proof.
  intros F. induction F as [|t l Ht F IH]; intros N; simpl.
  - repeat constructor. intros [].
  - inversion N as [|? ? Hn N']; subst. constructor; [|now apply IH].
    intros I. apply in_app_or in I. destruct I as [I|[E|[]]]; [tauto|lia].
Qed.

Lemma queueInv_setTimeout cb delay now s :
  isWatcher cb = false ->
  queueInv s -> queueInv (fst (setTimeout cb delay now s)).
Proof.
  intros Hc (W & U & F). unfold queueInv, wellQueued. simpl. repeat split.
  - apply Forall_app. split.
    + eapply Forall_impl; [|exact W]. intros t Ht. simpl in Ht. lia.
    + repeat constructor.
  - rewrite map_app. simpl. now apply NoDup_fresh.
  - apply Forall_app. split; [exact F|].
    repeat constructor. simpl. congruence.
Qed.

Lemma queueInv_debounce cb now s : queueInv s -> queueInv (debounce cb now s).
Proof.
  intros I. pose proof (queueInv_clearTimeout (convoRefDebounce s) I) as I1.
  assert (Q : Forall (fun t => isWatcher (action t) = false)
                (timers (clearTimeout (convoRefDebounce s) s))).
  { destruct I as (_ & _ & F). destruct (convoRefDebounce s) as [h|]; simpl.
    - induction F as [|t l Ht _ IH]; simpl; [constructor|].
      destruct (Nat.eqb_spec (timerId t) h); simpl; [exact IH|].
      constructor; [|exact IH].
      destruct (isWatcher (action t)) eqn:Wt; [|reflexivity].
      specialize (Ht eq_refl). congruence.
    - eapply Forall_impl; [|exact F]. intros t Ht. simpl in Ht.
      destruct (isWatcher (action t)) eqn:Wt; [|reflexivity].
      specialize (Ht eq_refl). discriminate. }
  destruct I1 as (W1 & U1 & _).
  assert (N1 : nextTimerId (clearTimeout (convoRefDebounce s) s) = nextTimerId s)
    by (destruct (convoRefDebounce s); reflexivity).
  unfold wellQueued in W1. rewrite N1 in W1.
  unfold debounce, queueInv, wellQueued. cbn. rewrite N1. repeat split.
  - apply Forall_app. split.
    + eapply Forall_impl; [|exact W1]. intros t Ht. simpl in Ht. lia.
    + repeat constructor.
  - rewrite map_app. simpl. now apply NoDup_fresh.
  - apply Forall_app. split.
    + eapply Forall_impl; [|exact Q]. intros t Ht. simpl in Ht. congruence.
    + repeat constructor.
Qed.

Lemma queueInv_handleNavigation now s :
  queueInv s -> queueInv (handleNavigation now s).
Proof.
  intros I. unfold handleNavigation. destruct (_ <? _); [exact I|].
  apply queueInv_setTimeout; [reflexivity|].
  eapply queueInv_sameQueue; [|exact I]. repeat split.
Qed.

Lemma queueInv_observerCallback ms now s :
  queueInv s -> queueInv (observerCallback ms now s).
Proof.
  intros I. unfold observerCallback.
  destruct (scanMutations ms) as [[|] [|]];
    repeat apply queueInv_debounce; exact I.
Qed.

Lemma queueInv_cleanup s : queueInv s -> queueInv (cleanup s).
Proof.
  intros I.
  assert (E : exists x y,
             sameQueue (clearTimeout x (clearTimeout y s)) (cleanup s)).
  { destruct s as [d ba oa ci ac lnt deb obs ps rs ts nid].
    destruct obs, ci as [[|c]|], deb as [[|k]|];
      first [ exists None, None; repeat split; fail
            | exists (Some (S k)), None; repeat split; fail
            | exists None, (Some (S c)); repeat split; fail
            | exists (Some (S k)), (Some (S c)); repeat split; fail ]. }
  destruct E as (x & y & Q). eapply queueInv_sameQueue; [exact Q|].
  now repeat apply queueInv_clearTimeout.
Qed.

Lemma queueInv_runCallback cb now s :
  queueInv s -> queueInv (runCallback cb now s).
Proof.
  intros I. destruct cb; cbn [runCallback].
  - eapply queueInv_sameQueue; [apply sameQueue_addReferenceButton|exact I].
  - unfold observerRemoveCheck. destruct (findChatActionBar _); [exact I|].
    eapply queueInv_sameQueue; [apply sameQueue_removeReferenceButton|exact I].
  - unfold navSettle. destruct (findChatActionBar _).
    + eapply queueInv_sameQueue; [apply sameQueue_addReferenceButton|exact I].
    + eapply queueInv_sameQueue; [apply sameQueue_removeReferenceButton|exact I].
  - unfold initOuter. apply queueInv_setTimeout; [reflexivity|].
    eapply queueInv_sameQueue; [apply sameQueue_setupObserver|exact I].
  - unfold initInner.
    pose proof (queueInv_sameQueue (sameQueue_addReferenceButton s) I) as I1.
    destruct (addReferenceButton s) as [s1 [|]]; cbn [fst] in I1; [exact I1|].
    now apply queueInv_handleNavigation.
Qed.

Lemma queueInv_step e s : queueInv s -> queueInv (step e s).
Proof.
  intros I. destruct e; cbn [step].
  - eapply queueInv_sameQueue; [|exact I]. repeat split.
  - destruct (convoRefObserver s) as [[|]|]; try exact I.
    now apply queueInv_observerCallback.
  - destruct (pushState s); [exact I|now apply queueInv_handleNavigation].
  - destruct (replaceState s); [exact I|now apply queueInv_handleNavigation].
  - now apply queueInv_handleNavigation.
  - destruct hidden; [exact I|now apply queueInv_handleNavigation].
  - destruct (pending h s); [|exact I].
    apply queueInv_runCallback. now apply queueInv_clearTimeout.
  - eapply queueInv_sameQueue; [apply sameQueue_addReferenceButton|exact I].
  - now apply queueInv_cleanup.
Qed.

Lemma queueInv_run es : forall s, queueInv s -> queueInv (run es s).
Proof.
  induction es as [|e es IH]; intros s I; [exact I|].
  simpl. apply IH. now apply queueInv_step.
Qed.

Lemma queueInv_init d now : queueInv (init d now).
Proof.
  unfold queueInv, wellQueued. simpl. repeat split; repeat constructor.
  - intros [].
  - discriminate.
Qed.

Lemma queueInv_one_watcher s :
  queueInv s -> (List.length (watcherTimers s) <= 1)%nat.
Proof.
  intros (_ & U & F). unfold watcherTimers.
  induction F as [|t l Ht F IH]; [simpl; lia|].
  inversion U as [|? ? Hn U']; subst. specialize (IH U').
  simpl. destruct (isWatcher (action t)) eqn:Wt; [|exact IH].
  assert (E : filter (fun x => isWatcher (action x)) l = []).
  { destruct (filter (fun x => isWatcher (action x)) l) as [|x r] eqn:Fx;
      [reflexivity|]. exfalso.
    assert (Ix : In x (filter (fun x => isWatcher (action x)) l))
      by (rewrite Fx; now left).
    apply filter_In in Ix. destruct Ix as [Ix Wx].
    rewrite Forall_forall in F. pose proof (F x Ix Wx) as Dx.
    rewrite (Ht eq_refl) in Dx. inversion Dx as [Eid].
    apply Hn. rewrite Eid. now apply in_map. }
  rewrite E. simpl. lia.
Qed.

(** X6: in every state the script reaches, whatever the events and their
    order, at most one of the watcher's checks is pending: each batch clears
    the timer [window.convoRefDebounce] names before queueing the next
    (a last-write-wins debounce). *)
Theorem one_pending_watcher_check (d : forest) (now : Z) (es : list event) :
  (List.length (watcherTimers (run es (init d now))) <= 1)%nat.
Proof.
  apply queueInv_one_watcher, queueInv_run, queueInv_init.
Qed.

(** ** Start-up *)

Lemma navSettle_idle (s : state) :
  controls (document s) = 0%nat ->
  locateAnchor (document s) = None ->
  document (navSettle s) = document s /\ timers (navSettle s) = timers s.
Proof.
  intros Z Hp. unfold navSettle. destruct (findChatActionBar (document s)).
  - rewrite addReferenceButton_eq. cbv zeta.
    rewrite (@removeExisting_none _ Z), Hp. split; reflexivity.
  - rewrite removeReferenceButton_none by exact Z. split; reflexivity.
Qed.

Lemma started_eq (d : forest) (now t1 t2 : Z) :
  started d now t1 t2
  = initInner t2
      (mkState d false true None 0 0 None (Some true) Wrapped Wrapped [] 3).
Proof. reflexivity. Qed.

(** X7: once the two start-up timers have fired on a page without a
    control, the observer is running; if the page has the anchor the control
    sits in it and nothing further is queued; if not, the page is untouched
    and exactly one settle check is queued (none before the clock reads
    500), after which the script waits for the next mutation or navigation:
    there is no retry loop. *)
Theorem start_up (d : forest) (now t1 t2 t3 : Z) :
  controls d = 0%nat ->
  let s := started d now t1 t2 in
  convoRefObserver s = Some true
  /\ match locateAnchor d with
     | Some p =>
         document s = prepend_at p refButtonContainer d /\ timers s = []
     | None =>
         document s = d
         /\ timers s = (if t2 <? 500 then []
                        else [mkTimer 3 (t2 + 1500) NavSettle])
         /\ document (step (TimerFires 3 t3) s) = d
         /\ timers (step (TimerFires 3 t3) s) = []
     end.
Proof.
  intros Z s. subst s. rewrite started_eq. unfold initInner.
  rewrite addReferenceButton_eq. cbv zeta. cbn [document].
  rewrite (@removeExisting_none d Z).
  destruct (locateAnchor d) as [p|] eqn:Hp.
  - repeat split.
  - unfold handleNavigation. cbn [lastNavTime set_document].
    rewrite Z.sub_0_r. destruct (t2 <? 500) eqn:Ht.
    + repeat split.
    + split; [reflexivity|]. split; [reflexivity|]. split; [reflexivity|].
      set (waiting := mkState d false true None 0 t2 None (Some true)
                        Wrapped Wrapped [] 4).
      change (document (navSettle waiting) = d
              /\ timers (navSettle waiting) = []).
      destruct (@navSettle_idle waiting Z Hp) as [D T].
      split; [exact D|exact T].
Qed.

Lemma start_up_witness :
  document (started chatPage 0 2000 3000)
  = prepend_at [0; 0; 0]%nat refButtonContainer chatPage
  /\ timers (started otherPage 0 2000 3000) = [mkTimer 3 4500 NavSettle].
Proof.
  split.
  - destruct (@start_up chatPage 0 2000 3000 0 eq_refl) as (_ & R).
    change (locateAnchor chatPage) with (Some [0; 0; 0]%nat) in R.
    exact (proj1 R).
  - destruct (@start_up otherPage 0 2000 3000 0 eq_refl) as (_ & R).
    change (locateAnchor otherPage) with (@None path) in R.
    exact (proj1 (proj2 R)).
Defined.

(** ** After cleanup *)

Lemma lastNavTime_cleanup s : lastNavTime (cleanup s) = lastNavTime s.
Proof.
  destruct s as [d ba oa ci ac lnt deb obs ps rs ts nid].
  destruct obs, ci as [[|c]|], deb as [[|k]|]; reflexivity.
Qed.

(** X8: after [cleanup] the history entry points and the observer are
    silent -- a pushState, a replaceState or a mutation batch changes
    nothing -- but the popstate and visibility listeners are still in place:
    such a signal, 500ms or more after the last accepted one, is accepted
    and queues a settle check as before. *)
Theorem after_cleanup (s : state) (now : Z) :
  step (PushState now) (cleanup s) = cleanup s
  /\ step (ReplaceState now) (cleanup s) = cleanup s
  /\ (forall ms, step (Mutations ms now) (cleanup s) = cleanup s)
  /\ (500 <= now - lastNavTime s ->
      step (PopState now) (cleanup s) = accepted now (cleanup s)
      /\ step (VisibilityChange false now) (cleanup s)
         = accepted now (cleanup s)).
Proof.
  split; [reflexivity|]. split; [reflexivity|]. split.
  - intros ms. cbn [step].
    destruct (cleanup_releases s) as (_ & _ & O & _).
    destruct (convoRefObserver (cleanup s)) as [[|]|]; congruence.
  - intros G. cbn [step]. unfold handleNavigation.
    rewrite lastNavTime_cleanup.
    destruct (Z.ltb_spec (now - lastNavTime s) 500); [lia|].
    split; reflexivity.
Qed.

Lemma after_cleanup_witness :
  step (PopState 9000) (cleanup busyState) = accepted 9000 (cleanup busyState).
Proof.
  destruct (after_cleanup busyState 9000) as (_ & _ & _ & P).
  assert (G : 500 <= 9000 - lastNavTime busyState)
    by (vm_compute; discriminate).
  exact (proj1 (P G)).
Defined.

(** X20: [cleanup] called before the start-up timers have fired only
    unhooks the history entry points: the timers are not cleared, so the
    observer is attached and the first check runs all the same, leaving the
    document and the queue as a start-up without the cleanup does. *)
Theorem cleanup_during_start_up (d : forest) (now t1 t2 : Z) :
  let s := run [CallCleanup; TimerFires 1 t1; TimerFires 2 t2] (init d now) in
  document s = document (started d now t1 t2)
  /\ timers s = timers (started d now t1 t2)
  /\ convoRefObserver s = Some true
  /\ pushState s = Original /\ replaceState s = Original.
Proof.
  intros s.
  change s with
    (initInner t2
       (mkState d false true None 0 0 None (Some true) Original Original [] 3)).
  rewrite started_eq. unfold initInner.
  rewrite !addReferenceButton_eq. cbv zeta. cbn [document].
  destruct (locateAnchor (removeExisting d)); [repeat split|].
  unfold handleNavigation. cbn [lastNavTime set_document].
  destruct (t2 - 0 <? 500); repeat split.
Qed.

End Lifecycle.

(* ------------------------------------------------------------------ *)
(** * More on the storage reader *)
(* ------------------------------------------------------------------ *)

Module StorageFacts.
Import Js Storage.
Local Open Scope string_scope.
Local Open Scope list_scope.

(** A record the selection flow can read: an object whose [messages] is
    set. *)
Definition readable (chat : value) : Prop :=
  exists fields, chat = Obj fields /\ lookup "messages" fields <> Undefined.

Lemma isChat_readable (entry : value) : isChat entry = true -> readable entry.
Proof.
  intros H. apply isChat_spec in H.
  destruct H as (fields & -> & [[_ M]|[_ [items M]]]); exists fields;
    (split; [reflexivity|]); [exact M|rewrite M; discriminate].
Qed.

(** X9: whatever the store holds, every record [getChatsFromIndexedDB]
    returns is an object with its [messages] set -- never [null], a
    primitive or an array -- so the property reads of the sort and of the
    list view cannot fail on it. *)
Theorem getChats_returns_objects (idb : indexedDB) (chats : list value) :
  fst (getChatsFromIndexedDB idb) = Normal chats ->
  Forall readable chats.
Proof.
  intros H. pose proof (getChats_paths idb) as P.
  destruct (idb "keyval-store") as [err|db];
    [rewrite P in H; discriminate|].
  destruct (objectStore "keyval" (objectStores db)) as [[err|entries]|];
    rewrite P in H; try discriminate.
  inversion H; subst. apply Forall_forall. intros c Hc.
  apply filter_In in Hc. now apply isChat_readable.
Qed.

Lemma getChats_returns_objects_witness :
  Forall readable [planChat; looseEntry].
Proof.
  apply (@getChats_returns_objects
           (storeOf [Null; planChat; Arr []; looseEntry; Str "x"])).
  reflexivity.
Defined.

(** X10: the state the connection is left in tells how the call ended: it
    is closed exactly when the call returns its list, never opened exactly
    when the open request failed, and left open exactly when the store
    opened but ['keyval'] was missing or its enumeration failed. *)
Theorem connection_after_call (idb : indexedDB) :
  (snd (getChatsFromIndexedDB idb) = Closed <->
   exists chats, fst (getChatsFromIndexedDB idb) = Normal chats)
  /\ (snd (getChatsFromIndexedDB idb) = NeverOpened <->
      exists err, idb "keyval-store" = Failed err)
  /\ (snd (getChatsFromIndexedDB idb) = Open <->
      exists db, idb "keyval-store" = Succeeded db
                 /\ forall entries,
                      objectStore "keyval" (objectStores db)
                      <> Some (Succeeded entries)).
Proof.
  pose proof (getChats_paths idb) as P.
  destruct (idb "keyval-store") as [err|db].
  - rewrite P. cbn [fst snd]. split; [|split]; split; intros H.
    + discriminate.
    + destruct H as [c H]. discriminate.
    + eauto.
    + reflexivity.
    + discriminate.
    + destruct H as (db & H & _). discriminate.
  - destruct (objectStore "keyval" (objectStores db)) as [[err|entries]|] eqn:O;
      rewrite P; cbn [fst snd]; (split; [|split]); split; intros H.
    + discriminate.
    + destruct H as [c H]. discriminate.
    + discriminate.
    + destruct H as [e H]. discriminate.
    + exists db. split; [reflexivity|]. rewrite O. intros e. discriminate.
    + reflexivity.
    + eauto.
    + reflexivity.
    + discriminate.
    + destruct H as [e H]. discriminate.
    + discriminate.
    + destruct H as (db' & E & N). inversion E; subst.
      rewrite O in N. exfalso. now apply (N entries).
    + discriminate.
    + destruct H as [c H]. discriminate.
    + discriminate.
    + destruct H as [e H]. discriminate.
    + exists db. split; [reflexivity|]. rewrite O. intros e. discriminate.
    + reflexivity.
Qed.

Lemma connection_after_call_witness :
  snd (getChatsFromIndexedDB (storeOf [planChat])) = Closed
  /\ snd (getChatsFromIndexedDB (fun _ => Failed "blocked")) = NeverOpened.
Proof.
  split.
  - apply (proj1 (connection_after_call (storeOf [planChat]))).
    eexists. reflexivity.
  - apply (proj1 (proj2 (connection_after_call (fun _ => Failed "blocked")))).
    eexists. reflexivity.
Defined.

End StorageFacts.

(* ------------------------------------------------------------------ *)
(** * More on the input writer *)
(* ------------------------------------------------------------------ *)

Module WriterFacts.
Import Js Writer.
Local Open Scope list_scope.

(** The order of the signals, lines 58 and 68-73. *)
Definition signalOrder : list eventType :=
  [CompositionStart; KeyDown; KeyPress; KeyUp; Input; CompositionEnd; Change].

(** Every dispatch goes through and one of the two ways to set the value
    does. *)
Definition deliverable (f : faults) : bool :=
  forallb (fun ty => negb (dispatchRaises f ty)) signalOrder
  && negb (nativeSetterRaises f && assignRaises f).

(** How many signals of [signalOrder] get dispatched under [f]. *)
Definition reached (f : faults) : nat :=
  if dispatchRaises f CompositionStart then 0
  else if nativeSetterRaises f && assignRaises f then 1
  else if dispatchRaises f KeyDown then 1
  else if dispatchRaises f KeyPress then 2
  else if dispatchRaises f KeyUp then 3
  else if dispatchRaises f Input then 4
  else if dispatchRaises f CompositionEnd then 5
  else if dispatchRaises f Change then 6
  else 7.

Section Facts.

Variable char : Type.
Variable char_eq_dec : forall a b : char, {a = b} + {a <> b}.

(** The value line 53 computes. *)
Definition spliced (el : textarea char) (t : text char) : text char :=
  substring 0 (selectionStart el) (value el) ++ t
  ++ substringFrom (selectionEnd el) (value el).

(** The element once the value is set and the seven signals are out. *)
Definition signalled (el : textarea char) (t : text char) : textarea char :=
  logEvent Change
    (logEvent CompositionEnd
       (logEvent Input
          (logEvent KeyUp
             (logEvent KeyPress
                (logEvent KeyDown
                   (setValue char_eq_dec (spliced el t)
                      (logEvent CompositionStart (setFocused el)))))))).

(** The element with the range [from..to] selected. *)
Definition reselect (from to : nat) (el : textarea char) : textarea char :=
  mkTextarea (value el) from to (focused el) (dispatched el).

Lemma deliverable_flags (f : faults) :
  deliverable f = true ->
  dispatchRaises f CompositionStart = false
  /\ dispatchRaises f KeyDown = false /\ dispatchRaises f KeyPress = false
  /\ dispatchRaises f KeyUp = false /\ dispatchRaises f Input = false
  /\ dispatchRaises f CompositionEnd = false
  /\ dispatchRaises f Change = false
  /\ nativeSetterRaises f && assignRaises f = false.
Proof.
  unfold deliverable. cbn [forallb signalOrder]. intros H.
  apply andb_true_iff in H. destruct H as [F N].
  repeat (apply andb_true_iff in F; destruct F as [? F]).
  repeat match goal with
         | E : negb _ = true |- _ => apply negb_true_iff in E
         end.
  tauto.
Qed.

(** A deliverable call runs all the way to the selection assignments. *)
Lemma insert_deliverable (f : faults) (t : text char) (el : textarea char) :
  deliverable f = true ->
  insertTextIntoInput char_eq_dec f t el
  = if selectionRaises f then (Normal false, signalled el t)
    else (Normal true,
          selectTo
            (selectionStart
               (selectFrom (selectionStart el + List.length t) (signalled el t)))
            (selectFrom (selectionStart el + List.length t) (signalled el t))).
Proof.
  intros D. destruct (deliverable_flags f D)
    as (F1 & F2 & F3 & F4 & F5 & F6 & F7 & F8).
  destruct f as [d n a sr].
  cbn [dispatchRaises nativeSetterRaises assignRaises selectionRaises] in *.
  unfold insertTextIntoInput, dispatchEvent, nativeInputValueSetter,
    assignValue, setSelectionStart, setSelectionEnd.
  cbn [dispatchRaises nativeSetterRaises assignRaises selectionRaises].
  rewrite F1, F2, F3, F4, F5, F6, F7.
  destruct n; [simpl in F8; subst a|]; destruct sr; reflexivity.
Qed.

Lemma value_setSelectionRange a b (el : textarea char) :
  value (setSelectionRange a b el) = value el.
Proof. reflexivity. Qed.

Lemma value_signalled (el : textarea char) (t : text char) :
  value (signalled el t) = spliced el t.
Proof.
  unfold signalled. cbn [logEvent value].
  now destruct (setValue_value char_eq_dec (spliced el t)
                  (logEvent CompositionStart (setFocused el))).
Qed.

Lemma value_inserted (f : faults) (t : text char) (el : textarea char) :
  deliverable f = true ->
  value (snd (insertTextIntoInput char_eq_dec f t el)) = spliced el t.
Proof.
  intros D. rewrite (insert_deliverable f t el D).
  destruct (selectionRaises f); cbn [snd]; [apply value_signalled|].
  unfold selectTo, selectFrom. rewrite !value_setSelectionRange.
  apply value_signalled.
Qed.

Lemma spliced_bounds (el : textarea char) (t : text char) :
  selectionStart el <= selectionEnd el ->
  selectionEnd el <= List.length (value el) ->
  spliced el t
  = firstn (selectionStart el) (value el) ++ t
    ++ skipn (selectionEnd el) (value el).
Proof.
  intros Hs He. unfold spliced.
  rewrite (@substring_prefix char (selectionStart el) (value el)) by lia.
  now rewrite (@substringFrom_suffix char (selectionEnd el) (value el)).
Qed.

Lemma substring_inner (s e : nat) (v : text char) :
  s <= e -> e <= List.length v ->
  substring s e v = firstn (e - s) (skipn s v).
Proof.
  intros Hs He. unfold substring.
  rewrite (Nat.min_l s (List.length v)) by lia.
  rewrite (Nat.min_l e (List.length v)) by lia.
  rewrite (Nat.min_l s e) by lia. rewrite (Nat.max_r s e) by lia.
  reflexivity.
Qed.

Lemma signals_signalled (el : textarea char) (t : text char) :
  map fst (dispatched (signalled el t))
  = map fst (dispatched el) ++ signalOrder.
Proof.
  unfold signalled. cbn [logEvent dispatched].
  destruct (setValue_value char_eq_dec (spliced el t)
              (logEvent CompositionStart (setFocused el))) as (_ & _ & D).
  rewrite D. cbn [logEvent setFocused dispatched].
  rewrite !map_app, <- !app_assoc. reflexivity.
Qed.

(** X11: when only the selection assignments raise (an input that has no
    selection), the call returns false although the text is in: the value
    is the spliced one and all seven signals have been dispatched, so the
    caller's "could not insert" notice follows a completed insertion. *)
Theorem selection_failure_keeps_text (f : faults) (t : text char)
  (el : textarea char) :
  deliverable f = true ->
  selectionRaises f = true ->
  selectionStart el <= selectionEnd el ->
  selectionEnd el <= List.length (value el) ->
  fst (insertTextIntoInput char_eq_dec f t el) = Normal false
  /\ value (snd (insertTextIntoInput char_eq_dec f t el))
     = firstn (selectionStart el) (value el) ++ t
       ++ skipn (selectionEnd el) (value el)
  /\ map fst (dispatched (snd (insertTextIntoInput char_eq_dec f t el)))
     = map fst (dispatched el) ++ signalOrder.
Proof.
  intros D S Hs He. split; [|split].
  - rewrite (insert_deliverable f t el D), S. reflexivity.
  - rewrite (value_inserted f t el D). now apply spliced_bounds.
  - rewrite (insert_deliverable f t el D), S. cbn [snd].
    apply signals_signalled.
Qed.

(** X12: undoing an insertion.  After a deliverable call has put [t] over
    the selection [s..e], selecting the inserted range [s..s+|t|] and
    inserting the text that was replaced gives the original value back. *)
Theorem insert_then_restore (f : faults) (t : text char) (el : textarea char) :
  deliverable f = true ->
  selectionStart el <= selectionEnd el ->
  selectionEnd el <= List.length (value el) ->
  let s := selectionStart el in
  let e := selectionEnd el in
  let inserted := snd (insertTextIntoInput char_eq_dec f t el) in
  value
    (snd (insertTextIntoInput char_eq_dec f (substring s e (value el))
            (reselect s (s + List.length t) inserted)))
  = value el.
Proof.
  intros D Hs He s e inserted.
  assert (V : value inserted
              = firstn s (value el) ++ t ++ skipn e (value el)).
  { unfold inserted. rewrite (value_inserted f t el D).
    now apply spliced_bounds. }
  rewrite (value_inserted f _ _ D). unfold spliced, reselect.
  cbn [value selectionStart selectionEnd]. rewrite V.
  set (v := value el) in *.
  assert (Lf : List.length (firstn s v) = s)
    by (rewrite length_firstn; subst s e; lia).
  rewrite (@substring_prefix char s) by (rewrite !length_app; lia).
  rewrite (@substringFrom_suffix char (s + List.length t))
    by (rewrite !length_app; lia).
  rewrite (@substring_inner s e v) by (subst s e; assumption).
  rewrite firstn_app, Lf, Nat.sub_diag, firstn_O, app_nil_r.
  rewrite firstn_all2 by lia.
  rewrite skipn_app, Lf.
  rewrite (skipn_all2 (firstn s v)) by lia.
  replace (s + List.length t - s) with (List.length t) by lia.
  rewrite skipn_app, skipn_all, Nat.sub_diag. cbn [skipn app].
  replace (skipn e v) with (skipn (e - s) (skipn s v))
    by (rewrite skipn_skipn; f_equal; subst s e; lia).
  rewrite firstn_skipn. apply firstn_skipn.
Qed.

(** X13: whatever raises, the signals the element receives are an initial
    run of the fixed order -- composition-start, key-down, key-press,
    key-up, input, composition-end, change; a call that returns true has
    sent all seven, and a call whose first dispatch raises has changed
    nothing but the focus. *)
Theorem signals_in_order (f : faults) (t : text char) (el : textarea char) :
  map fst (dispatched (snd (insertTextIntoInput char_eq_dec f t el)))
  = map fst (dispatched el) ++ firstn (reached f) signalOrder
  /\ (fst (insertTextIntoInput char_eq_dec f t el) = Normal true ->
      reached f = 7)
  /\ (reached f = 0 ->
      snd (insertTextIntoInput char_eq_dec f t el) = setFocused el).
Proof.
  destruct f as [d n a sr].
  unfold reached, insertTextIntoInput, dispatchEvent, nativeInputValueSetter,
    assignValue, setSelectionStart, setSelectionEnd.
  cbn [dispatchRaises nativeSetterRaises assignRaises selectionRaises].
  unfold bind, tryCatch, get, ret, focus, modify, raise.
  assert (D : forall v x, dispatched (setValue char_eq_dec v x) = dispatched x)
    by (intros v x; apply (setValue_value char_eq_dec v x)).
  destruct (d CompositionStart);
    [cbn; rewrite app_nil_r; repeat split; discriminate|].
  destruct n, a; cbn [andb];
    try (cbn; repeat split; try discriminate;
         rewrite !map_app, <- !app_assoc; reflexivity);
    (destruct (d KeyDown);
       [cbn; rewrite ?D; cbn; repeat split; try discriminate;
        rewrite !map_app, <- ?app_assoc; reflexivity|]);
    (destruct (d KeyPress);
       [cbn; rewrite ?D; cbn; repeat split; try discriminate;
        rewrite !map_app, <- ?app_assoc; reflexivity|]);
    (destruct (d KeyUp);
       [cbn; rewrite ?D; cbn; repeat split; try discriminate;
        rewrite !map_app, <- ?app_assoc; reflexivity|]);
    (destruct (d Input);
       [cbn; rewrite ?D; cbn; repeat split; try discriminate;
        rewrite !map_app, <- ?app_assoc; reflexivity|]);
    (destruct (d CompositionEnd);
       [cbn; rewrite ?D; cbn; repeat split; try discriminate;
        rewrite !map_app, <- ?app_assoc; reflexivity|]);
    (destruct (d Change);
       [cbn; rewrite ?D; cbn; repeat split; try discriminate;
        rewrite !map_app, <- ?app_assoc; reflexivity|]);
    destruct sr; cbn; rewrite ?D; cbn; repeat split; try discriminate;
      rewrite !map_app, <- ?app_assoc; reflexivity.
Qed.

End Facts.

Lemma selection_failure_keeps_text_witness :
  fst (insertTextIntoInput Ascii.ascii_dec noSelection
         (list_ascii_of_string "XY")
         (mkTextarea (list_ascii_of_string "abcdef") 2 4 false []))
  = Normal false
  /\ value (snd (insertTextIntoInput Ascii.ascii_dec noSelection
                   (list_ascii_of_string "XY")
                   (mkTextarea (list_ascii_of_string "abcdef") 2 4 false [])))
     = list_ascii_of_string "abXYef".
Proof.
  destruct (@selection_failure_keeps_text ascii Ascii.ascii_dec noSelection
              (list_ascii_of_string "XY")
              (mkTextarea (list_ascii_of_string "abcdef") 2 4 false [])
              eq_refl eq_refl) as (R & V & _);
    [simpl; repeat constructor..|].
  split; [exact R|exact V].
Defined.

Lemma signals_in_order_witness :
  map fst
    (dispatched
       (snd (insertTextIntoInput Ascii.ascii_dec
               (mkFaults (fun ty => match ty with Input => true | _ => false end)
                  false false false)
               (list_ascii_of_string "XY")
               (mkTextarea (list_ascii_of_string "abcdef") 2 4 false []))))
  = [CompositionStart; KeyDown; KeyPress; KeyUp].
Proof.
  destruct (@signals_in_order ascii Ascii.ascii_dec
              (mkFaults (fun ty => match ty with Input => true | _ => false end)
                 false false false)
              (list_ascii_of_string "XY")
              (mkTextarea (list_ascii_of_string "abcdef") 2 4 false []))
    as (S & _).
  rewrite S. reflexivity.
Defined.

Lemma insert_then_restore_witness :
  value
    (snd (insertTextIntoInput Ascii.ascii_dec noFaults
            (list_ascii_of_string "cd")
            (reselect 2 4
               (snd (insertTextIntoInput Ascii.ascii_dec noFaults
                       (list_ascii_of_string "XY")
                       (mkTextarea (list_ascii_of_string "abcdef") 2 4 false
                          []))))))
  = list_ascii_of_string "abcdef".
Proof.
  refine (@insert_then_restore ascii Ascii.ascii_dec noFaults
            (list_ascii_of_string "XY")
            (mkTextarea (list_ascii_of_string "abcdef") 2 4 false [])
            eq_refl _ _); simpl; repeat constructor.
Defined.

End WriterFacts.

(* ------------------------------------------------------------------ *)
(** * The selection flow as a whole (handleButtonClick) *)
(* ------------------------------------------------------------------ *)

Module Flow.
Import Js Storage Selection Dom.
Local Open Scope string_scope.
Local Open Scope list_scope.

(** ** Definitions *)

(** *** Formatting, message by message *)




(** *** The search box (lines 242-246) *)

(** [toLowerCase] on the code units below 256: A-Z and the accented
    capitals move up by 32. *)
Definition lowerChar (c : ascii) : ascii :=
  let n := nat_of_ascii c in
  if (Nat.leb 65 n && Nat.leb n 90)
     || (Nat.leb 192 n && Nat.leb n 214)
     || (Nat.leb 216 n && Nat.leb n 222)
  then ascii_of_nat (n + 32)
  else c.

Fixpoint toLowerCase (s : string) : string :=
  match s with
  | EmptyString => EmptyString
  | String c rest => String (lowerChar c) (toLowerCase rest)
  end.

(** [s.includes(t)]. *)
Fixpoint includes (s t : string) : bool :=
  String.prefix t s
  || match s with
     | EmptyString => false
     | String _ rest => includes rest t
     end.

(** [chat.chatTitle || 'Untitled Conversation']. *)
Definition titleOf (chat : value) : value :=
  if truthy (prop "chatTitle" chat) then prop "chatTitle" chat
  else Str "Untitled Conversation".

(** The filter callback of line 244; a title that is no string has no
    [toLowerCase]. *)
Definition matchesSearch (searchTerm : string) (chat : value)
  : completion bool :=
  match titleOf chat with
  | Str title => Normal (includes (toLowerCase title) searchTerm)
  | _ => Throw (TypeError "toLowerCase is not a function")
  end.

Fixpoint filterChats (searchTerm : string) (chats : list value)
  : completion (list value) :=
  match chats with
  | [] => Normal []
  | chat :: rest =>
      match matchesSearch searchTerm chat with
      | Throw e => Throw e
      | Normal keep =>
          match filterChats searchTerm rest with
          | Throw e => Throw e
          | Normal kept => Normal (if keep then chat :: kept else kept)
          end
      end
  end.

(** The input listener: the list shown for what was typed. *)
Definition searchChats (typed : string) (chats : list value)
  : completion (list value) :=
  filterChats (toLowerCase typed) chats.

(** A chat the search can read the title of. *)
Definition titled (chat : value) : Prop := exists t, titleOf chat = Str t.

(** *** The target of the insertion (lines 289-291) *)

Definition hasMarker (m : string) (a : attrs) : bool :=
  opt_string_eqb (dataElementId a) m.

Definition hasTag (t : string) (a : attrs) : bool := String.eqb (tag a) t.

Definition findTextarea (d : forest) : option path :=
  match getElementById "chat-input-textbox" d with
  | Some p => Some p
  | None =>
      match querySelector (hasMarker "chat-input-textbox") d with
      | Some p => Some p
      | None => querySelector (hasTag "textarea") d
      end
  end.

(** An element any of the three lookups accepts. *)
Definition isInputCandidate (a : attrs) : bool :=
  has_id "chat-input-textbox" a
  || hasMarker "chat-input-textbox" a
  || hasTag "textarea" a.

(** *** The click on the control and the click on a list item *)

Inductive clickOutcome : Type :=
| NoChatsAlert                       (* "No previous chats found." *)
| ModalShown (chats : list value)    (* the list, in display order *)
| ErrorAlert (e : error).            (* "Error opening reference list" *)




Section Platform.

(** [Date.parse] and [Date.prototype.toLocaleString] (of a time value, none
    for an invalid date). *)
Variable parseDate : string -> option Z.
Variable toLocaleString : option Z -> string.

(** Lines 167-178 and 238: what the click on the control leads to. *)
Definition handleButtonClick (idb : indexedDB) : clickOutcome :=
  match fst (getChatsFromIndexedDB idb) with
  | Throw e => ErrorAlert e
  | Normal chats =>
      match chats with
      | [] => NoChatsAlert
      | _ :: _ => ModalShown (sortChats parseDate chats)
      end
  end.




End Platform.


(** A conversation titled with a number. *)
Definition numberedChat : value :=
  Obj [("chatTitle", Num 42); ("messages", Arr [])].

Definition plainLocale : option Z -> string := fun _ => "date".

(** ** Formatting a conversation *)









(** ** The search box *)

Lemma lowerChar_idem (c : ascii) : lowerChar (lowerChar c) = lowerChar c.
Proof. destruct c as [[] [] [] [] [] [] [] []]; reflexivity. Qed.

Lemma toLowerCase_idem (s : string) :
  toLowerCase (toLowerCase s) = toLowerCase s.
Proof.
  induction s as [|c s IH]; [reflexivity|].
  simpl. now rewrite lowerChar_idem, IH.
Qed.

Lemma includes_empty (s : string) : includes s "" = true.
Proof. destruct s; reflexivity. Qed.

Lemma matchesSearch_titled (term : string) (chat : value) :
  titled chat ->
  exists title, titleOf chat = Str title
                /\ matchesSearch term chat
                   = Normal (includes (toLowerCase title) term).
Proof.
  intros [title T]. exists title. split; [exact T|].
  unfold matchesSearch. now rewrite T.
Qed.

Lemma filterChats_titled (term : string) (chats : list value) :
  Forall titled chats ->
  exists shown,
    filterChats term chats = Normal shown
    /\ sublist shown chats
    /\ forall chat, In chat shown <->
                    In chat chats /\ matchesSearch term chat = Normal true.
Proof.
  induction 1 as [|chat rest Ht _ (kept & E & Sub & Mem)].
  - exists []. split; [reflexivity|]. split; [constructor|].
    intros c. simpl. tauto.
  - destruct (matchesSearch_titled term Ht) as (title & _ & M).
    cbn [filterChats]. rewrite M, E.
    destruct (includes (toLowerCase title) term) eqn:I.
    + exists (chat :: kept). split; [reflexivity|].
      split; [now constructor|]. intros c. simpl. rewrite Mem. split.
      * intros [<-|[Hc Hm]]; [split; [now left|exact M]|tauto].
      * intros [[<-|Hc] Hm]; [now left|right; tauto].
    + exists kept. split; [reflexivity|]. split; [now constructor|].
      intros c. rewrite Mem. simpl. split; [tauto|].
      intros [[<-|Hc] Hm]; [|tauto]. rewrite M in Hm. discriminate.
Qed.

(** X15: with chats whose titles are strings (or absent), the search shows
    a sub-list of the chats in their display order, holding exactly those
    whose lower-cased title contains the lower-cased input; an empty input
    shows them all, and the letter case of the input makes no difference. *)
Theorem search_lists (typed : string) (chats : list value) :
  Forall titled chats ->
  (exists shown,
     searchChats typed chats = Normal shown
     /\ sublist shown chats
     /\ forall chat,
          In chat shown <->
          In chat chats
          /\ exists title,
               titleOf chat = Str title
               /\ includes (toLowerCase title) (toLowerCase typed) = true)
  /\ searchChats "" chats = Normal chats
  /\ searchChats (toLowerCase typed) chats = searchChats typed chats.
Proof.
  intros T. split; [|split].
  - destruct (filterChats_titled (toLowerCase typed) T)
      as (shown & E & Sub & Mem).
    exists shown. split; [exact E|]. split; [exact Sub|].
    intros chat. rewrite Mem. split.
    + intros [Hc Hm]. split; [exact Hc|].
      rewrite Forall_forall in T.
      destruct (matchesSearch_titled (toLowerCase typed) (T chat Hc))
        as (title & Ht & M).
      exists title. split; [exact Ht|]. rewrite M in Hm. now inversion Hm.
    + intros [Hc (title & Ht & I)]. split; [exact Hc|].
      unfold matchesSearch. now rewrite Ht, I.
  - unfold searchChats. cbn [toLowerCase].
    induction T as [|chat rest Ht _ IH]; [reflexivity|].
    destruct (matchesSearch_titled "" Ht) as (title & _ & M).
    cbn [filterChats]. now rewrite M, IH, includes_empty.
  - unfold searchChats. now rewrite toLowerCase_idem.
Qed.

Lemma search_lists_witness :
  searchChats "PLAN" [stamped "Trip plan" 3; undated "Notes"; stamped "Plans" 1]
  = Normal [stamped "Trip plan" 3; stamped "Plans" 1].
Proof.
  assert (T : Forall titled
                [stamped "Trip plan" 3; undated "Notes"; stamped "Plans" 1])
    by (repeat constructor; eexists; reflexivity).
  destruct (search_lists "PLAN" T) as (_ & _ & C).
  rewrite <- C. reflexivity.
Defined.

(** X16: the search comes up with a list exactly when every chat's title
    is a string or falsy; one chat titled with a number or an object -- which
    the storage filter lets through -- makes every search throw. *)
Theorem search_needs_string_titles (typed : string) (chats : list value) :
  (exists shown, searchChats typed chats = Normal shown)
  <-> Forall titled chats.
Proof.
  split.
  - unfold searchChats. generalize (toLowerCase typed). intros term.
    induction chats as [|chat rest IH]; intros [shown E]; [constructor|].
    cbn [filterChats] in E. unfold matchesSearch in E.
    destruct (titleOf chat) as [| |b|n|title|items|fields] eqn:Ht;
      try discriminate.
    destruct (filterChats term rest) as [kept|e]; [|discriminate].
    constructor; [now exists title|]. apply IH. eauto.
  - intros T.
    destruct (filterChats_titled (toLowerCase typed) T) as (shown & E & _).
    exists shown. exact E.
Qed.

Lemma search_needs_string_titles_witness :
  ~ exists shown,
      searchChats "plan" [stamped "Trip plan" 3; numberedChat] = Normal shown.
Proof.
  intros H.
  apply (proj1 (search_needs_string_titles "plan"
                  [stamped "Trip plan" 3; numberedChat])) in H.
  inversion H as [|? ? _ H2]; subst. inversion H2 as [|? ? [t T] _]; subst.
  discriminate.
Defined.

(** ** The click on the control *)

Section Clicks.

Variable parseDate : string -> option Z.
Variable toLocaleString : option Z -> string.

(** X17: the click on the control ends in one of three ways and never
    throws: the error notice exactly when the storage reader throws, the
    "no chats" notice exactly when it returns no record, and otherwise the
    list, which is never empty, is a permutation of the records returned and
    is newest first when their keys read as dates. *)
Theorem click_outcome (idb : indexedDB) :
  (forall e, handleButtonClick parseDate idb = ErrorAlert e <->
             fst (getChatsFromIndexedDB idb) = Throw e)
  /\ (handleButtonClick parseDate idb = NoChatsAlert <->
      fst (getChatsFromIndexedDB idb) = Normal [])
  /\ (forall shown,
        handleButtonClick parseDate idb = ModalShown shown ->
        shown <> []
        /\ exists chats,
             fst (getChatsFromIndexedDB idb) = Normal chats
             /\ Permutation chats shown
             /\ (Forall (dated parseDate) chats ->
                 newestFirst (sortTime parseDate) shown)).
Proof.
  unfold handleButtonClick.
  destruct (fst (getChatsFromIndexedDB idb)) as [[|chat rest]|err].
  - split; [|split].
    + intros e. split; discriminate.
    + split; reflexivity.
    + discriminate.
  - split; [|split].
    + intros e. split; discriminate.
    + split; discriminate.
    + intros shown E.
      assert (Es : shown = sortChats parseDate (chat :: rest))
        by (now inversion E).
      clear E. subst shown. split.
      * intros N.
        pose proof (sortChats_perm parseDate (chat :: rest)) as P.
        apply Permutation_length in P. rewrite N in P. discriminate.
      * exists (chat :: rest). split; [reflexivity|].
        split; [apply sortChats_perm|]. intros D.
        now apply sortChats_sorted.
  - split; [|split].
    + intros e. split; intros E; inversion E; reflexivity.
    + split; discriminate.
    + discriminate.
Qed.

(** ** The click on a list item *)



End Clicks.


Lemma click_outcome_witness :
  handleButtonClick noDates (storeOf [settingsEntry; Num 7]) = NoChatsAlert
  /\ handleButtonClick noDates unreadableStore
     = ErrorAlert (Error "Failed to get entries from store: UnknownError").
Proof.
  split.
  - apply (proj1 (proj2 (click_outcome noDates
                           (storeOf [settingsEntry; Num 7])))).
    reflexivity.
  - apply (proj1 (click_outcome noDates unreadableStore)). reflexivity.
Defined.

(** ** The target text box *)

Lemma count_orb_zero (q r : attrs -> bool) :
  forall f : forest,
    count (fun a => q a || r a) f = 0%nat <->
    count q f = 0%nat /\ count r f = 0%nat.
Proof.
  induction f as [|s l IH|a cs l IHcs IHl] using forest_ind'.
  - split; [now split|reflexivity].
  - rewrite !count_Text. exact IH.
  - rewrite !count_Element. destruct (q a), (r a); cbn [orb]; lia.
Qed.

(** X19: the text box lookup fails exactly when the page has no element
    with the id ['chat-input-textbox'], none with that [data-element-id] and
    no [textarea]; what it finds is an element of the page, and the id wins
    over the marker, the marker over the tag. *)
Theorem findTextarea_spec (d : forest) :
  (findTextarea d = None <-> count isInputCandidate d = 0%nat)
  /\ forall p,
       findTextarea d = Some p ->
       exists a cs,
         get_at p d = Some (Element a cs)
         /\ (has_id "chat-input-textbox" a = true
             \/ (count (has_id "chat-input-textbox") d = 0%nat
                 /\ hasMarker "chat-input-textbox" a = true)
             \/ (count (has_id "chat-input-textbox") d = 0%nat
                 /\ count (hasMarker "chat-input-textbox") d = 0%nat
                 /\ hasTag "textarea" a = true)).
Proof.
  unfold findTextarea, getElementById.
  destruct (querySelector (has_id "chat-input-textbox") d) as [p1|] eqn:Q1.
  - destruct (querySelector_sound _ _ Q1) as (a & cs & Hg & Ha).
    split.
    + split; [discriminate|]. intros Z.
      apply count_orb_zero in Z. destruct Z as [Z _].
      apply count_orb_zero in Z. destruct Z as [Z _].
      apply querySelector_None_iff in Z. congruence.
    + intros p E. inversion E; subst. exists a, cs. tauto.
  - apply querySelector_None_iff in Q1.
    destruct (querySelector (hasMarker "chat-input-textbox") d) as [p2|] eqn:Q2.
    + destruct (querySelector_sound _ _ Q2) as (a & cs & Hg & Ha).
      split.
      * split; [discriminate|]. intros Z.
        apply count_orb_zero in Z. destruct Z as [Z _].
        apply count_orb_zero in Z. destruct Z as [_ Z].
        apply querySelector_None_iff in Z. congruence.
      * intros p E. inversion E; subst. exists a, cs. tauto.
    + apply querySelector_None_iff in Q2. split.
      * rewrite querySelector_None_iff. unfold isInputCandidate.
        rewrite !count_orb_zero. tauto.
      * intros p E. destruct (querySelector_sound _ _ E) as (a & cs & Hg & Ha).
        exists a, cs. tauto.
Qed.

Lemma findTextarea_spec_witness :
  findTextarea Script.otherPage = None
  /\ exists a cs,
       get_at [0; 1] Script.chatPage = Some (Element a cs)
       /\ has_id "chat-input-textbox" a = true.
Proof.
  split.
  - apply (proj1 (findTextarea_spec Script.otherPage)). reflexivity.
  - destruct (proj2 (findTextarea_spec Script.chatPage) [0; 1] eq_refl)
      as (a & cs & G & H).
    exists a, cs. split; [exact G|].
    destruct H as [H|[[Z _]|[Z _]]]; [exact H|discriminate..].
Defined.

End Flow.

(* ------------------------------------------------------------------ *)
(** * The modal and its list items *)
(* ------------------------------------------------------------------ *)

Module ListView.
Import Js Selection Dom.
Local Open Scope string_scope.
Local Open Scope list_scope.

(** ** Definitions *)

Definition modalId : string := "tm-reference-chat-modal".

(** The modal element of lines 181-186 around its content. *)
Definition modalOf (content : forest) : node :=
  Element (mkAttrs "div" (Some modalId) None []) content.

(** [document.body.appendChild(modal)], line 326: the modal becomes the last
    child of the body, whose children the forest lists. *)
Definition openModal (modal : node) (d : forest) : forest := d ++ [modal].

(** The three ways out -- Escape (lines 189-190), the choice of an item
    (lines 307-308), the cancel button (lines 316-317) -- run the same two
    lines. *)
Definition closeModal (d : forest) : forest :=
  match getElementById modalId d with
  | Some modalToRemove => remove_at modalToRemove d
  | None => d
  end.

Section Items.

Variable parseDate : string -> option Z.
Variable toLocaleString : option Z -> string.

(** The date a list item shows, line 219. *)
Definition itemDate (chat : value) : string :=
  if truthy (prop "updatedAt" chat)
  then toLocaleString (newDate parseDate (prop "updatedAt" chat))
  else if truthy (prop "createdAt" chat)
       then toLocaleString (newDate parseDate (prop "createdAt" chat))
       else "Unknown date".

End Items.

(** ** Opening and closing the modal *)

Lemma remove_nth_app (A : Type) (l : list A) (x : A) (rest : list A) :
  remove_nth (List.length l) (l ++ x :: rest) = l ++ rest.
Proof. induction l as [|y l IH]; [reflexivity|]. simpl. now rewrite IH. Qed.

(** On a forest without a match, the first match of a longer forest is the
    first matching node after it. *)
Lemma querySelector_app_hit (q : attrs -> bool) (a : attrs) (cs rest : forest) :
  q a = true ->
  forall d : forest,
    count q d = 0%nat ->
    querySelector q (d ++ Element a cs :: rest) = Some [List.length d].
Proof.
  intros Ha.
  induction d as [|s l IH|b ds l _ IHl] using forest_ind'; intros Z.
  - cbn [app List.length]. now rewrite querySelector_Element, Ha.
  - rewrite count_Text in Z. cbn [app List.length].
    rewrite querySelector_Text, (IH Z). reflexivity.
  - rewrite count_Element in Z. cbn [app List.length].
    rewrite querySelector_Element.
    destruct (q b); [simpl in Z; lia|].
    assert (Zd : count q ds = 0%nat) by lia.
    apply querySelector_None_iff in Zd. rewrite Zd.
    rewrite IHl by lia. reflexivity.
Qed.

Lemma closeModal_oldest (d : forest) (content rest : forest) :
  count (has_id modalId) d = 0%nat ->
  closeModal (d ++ modalOf content :: rest) = d ++ rest.
Proof.
  intros Z. unfold closeModal, getElementById, modalOf.
  rewrite (@querySelector_app_hit (has_id modalId)
             (mkAttrs "div" (Some modalId) None []) content rest eq_refl d Z).
  cbn [remove_at]. apply remove_nth_app.
Qed.

(** X21: every way out of the modal removes the first modal of the
    document, one per call.  On a page without a modal, closing changes
    nothing and opening then closing gives the page back; when two clicks
    have opened two modals, one close takes the older one away and leaves the
    newer. *)
Theorem close_removes_oldest_modal (d first second : forest) :
  count (has_id modalId) d = 0%nat ->
  closeModal d = d
  /\ closeModal (openModal (modalOf first) d) = d
  /\ closeModal (openModal (modalOf second) (openModal (modalOf first) d))
     = openModal (modalOf second) d.
Proof.
  intros Z. split; [|split].
  - unfold closeModal, getElementById.
    apply querySelector_None_iff in Z. now rewrite Z.
  - unfold openModal. rewrite (@closeModal_oldest d first [] Z).
    apply app_nil_r.
  - unfold openModal. rewrite <- app_assoc. cbn [app].
    apply (@closeModal_oldest d first [modalOf second] Z).
Qed.

Lemma close_removes_oldest_modal_witness :
  closeModal (openModal (modalOf [Text "newer"])
                (openModal (modalOf [Text "older"]) Script.chatPage))
  = openModal (modalOf [Text "newer"]) Script.chatPage.
Proof.
  apply (@close_removes_oldest_modal Script.chatPage [Text "older"]
           [Text "newer"]).
  reflexivity.
Defined.

(** ** The date of a list item *)

Section ItemFacts.

Variable parseDate : string -> option Z.
Variable toLocaleString : option Z -> string.

(** X22: the date a list item shows is the time the sort of line 177 went
    by: with a truthy [updatedAt] or [createdAt] it is the locale string of
    the record's sort time; with neither the item reads "Unknown date" while
    the record is sorted as the epoch. *)
Theorem itemDate_sortTime (chat : value) :
  (truthy (sortKey chat) = true ->
   itemDate parseDate toLocaleString chat
   = toLocaleString (sortTime parseDate chat))
  /\ (truthy (sortKey chat) = false ->
      itemDate parseDate toLocaleString chat = "Unknown date"
      /\ sortTime parseDate chat = Some 0%Z).
Proof.
  unfold itemDate, sortTime, sortKey.
  destruct (truthy (prop "updatedAt" chat)) eqn:U.
  - split; [reflexivity|]. intros F. congruence.
  - destruct (truthy (prop "createdAt" chat)) eqn:C.
    + split; [reflexivity|]. intros F. congruence.
    + split; [discriminate|]. intros _. split; reflexivity.
Qed.

End ItemFacts.

Lemma itemDate_sortTime_witness :
  itemDate noDates Flow.plainLocale (undated "Notes") = "Unknown date"
  /\ itemDate noDates (fun t => match t with Some 1000%Z => "created" | _ => "other" end)
       epochUpdated
     = "created".
Proof.
  split.
  - apply (proj2 (itemDate_sortTime noDates Flow.plainLocale (undated "Notes"))).
    reflexivity.
  - rewrite (proj1 (itemDate_sortTime noDates
                      (fun t => match t with
                                | Some 1000%Z => "created"
                                | _ => "other"
                                end)
                      epochUpdated) eq_refl).
    reflexivity.
Defined.

End ListView.
